(** * Resistivity-anisotropy inversion: a shallow embedding of [main.py]

    The class [ARI] of [main.py] inverts, sample by sample, a pair of
    measured resistivities (Rv, Rh) for a shale fraction Csh and a sand
    resistivity Rs.  This file embeds the numerical core of the class
    ([resistivity_inversion], [quadratic_inversion], [inversion_uq]) and
    proves properties of it.

    Modelling conventions.
    - A float64 is a real number ([R]) and arithmetic is exact; the NaN
      that the code writes explicitly ([np.nan]) is a constructor of
      [cell].  Rounding, overflow and the NaN of 0/0 are outside the model.
    - A pandas DataFrame is a [Frame]: the index labels and a finite map
      from column names to columns.  Rows are identified by position; the
      index of every table the code builds is the index of its input, so
      for an index without repeated labels the index joins of the code are
      positional.
    - Python exceptions are the left summand of [result].  The solver
      call is modelled twice: as a function that returns
      ([resistivity_inversion]), and with the ValueError that
      [linalg.norm] raises on a residual that is not finite
      ([resistivity_inversion_checked]).
    - The attributes of [self] are the record [ARI]; a method returns the
      updated object along with its value, and a method that writes into a
      DataFrame it was passed returns the updated DataFrame as well.
    - [scipy.optimize.minimize], [numpy.linalg.eigvals] and
      [numpy.random.normal] are library code: they are parameters of the
      sections that use them. *)

From Stdlib Require Import Reals Lra.
From stdpp Require Import gmap strings list.

Local Open Scope R_scope.

(** ** Exceptions *)

Inductive exn : Type :=
  | KeyError (column : string)
  | ValueError (msg : string)
  | IndexError
  | UnboundLocalError (var : string).

Definition result (A : Type) : Type := (exn + A)%type.

Definition raise {A : Type} (e : exn) : result A := inl e.
Definition ok {A : Type} (a : A) : result A := inr a.

Definition bind {A B : Type} (m : result A) (k : A -> result B) : result B :=
  match m with
  | inl e => inl e
  | inr a => k a
  end.

#[global] Instance result_bind : MBind result := fun A B k m => bind m k.
#[global] Instance result_ret : MRet result := fun A a => ok a.

(** ** numpy and scipy.linalg on vectors *)

(** [linalg.norm] of a vector: the Euclidean norm. *)
Definition linalg_norm (v : list R) : R :=
  sqrt (foldr (fun x acc => x * x + acc) 0 v).

Definition np_sum (v : list R) : R := foldr Rplus 0 v.

Definition np_mean (v : list R) : R := np_sum v / INR (length v).

(** [np.std]: the population standard deviation (ddof = 0). *)
Definition np_std (v : list R) : R :=
  let mu := np_mean v in
  sqrt (np_mean (fmap (fun x => (x - mu) * (x - mu)) v)).

(** [np.argmax]: the position of the first maximum; an empty sequence
    raises ValueError. *)
Fixpoint argmax_from (best : R) (besti i : nat) (v : list R) : nat :=
  match v with
  | [] => besti
  | x :: v' =>
      if Rlt_dec best x then argmax_from x i (S i) v'
      else argmax_from best besti (S i) v'
  end.

Definition np_argmax (v : list R) : result nat :=
  match v with
  | [] => raise (ValueError "attempt to get argmax of an empty sequence")
  | x :: v' => ok (argmax_from x 0 1 v')
  end.

(** [Series.min] and [Series.max].  Of an empty column pandas returns NaN;
    that value is then only broadcast over the (empty) column, so the model
    returns an arbitrary number there. *)
Definition series_min (v : list R) : R :=
  match v with
  | [] => 0
  | x :: v' => foldl Rmin x v'
  end.

Definition series_max (v : list R) : R :=
  match v with
  | [] => 0
  | x :: v' => foldl Rmax x v'
  end.

(** [s.iloc[k]] *)
Definition iloc (v : list R) (k : nat) : result R :=
  match v !! k with
  | Some x => ok x
  | None => raise IndexError
  end.

(** ** DataFrames *)

Record Frame (A : Type) : Type := mkFrame {
  index : list R;
  columns : gmap string (list A)
}.

Arguments mkFrame {A} _ _.
Arguments index {A} _.
Arguments columns {A} _.

Abbreviation DataFrame := (Frame R).

(** [df.shape[0]] *)
Definition nrows {A : Type} (df : Frame A) : nat := length (index df).

(** [df[c]] *)
Definition getcol {A : Type} (df : Frame A) (c : string) : result (list A) :=
  match columns df !! c with
  | Some v => ok v
  | None => raise (KeyError c)
  end.

(** [df[c].iloc[i]] where both exist. *)
Definition at_row {A : Type} (df : Frame A) (c : string) (i : nat) : option A :=
  columns df !! c ≫= (.!! i).

(** [df[c] = v] *)
Definition setcol {A : Type} (df : Frame A) (c : string) (v : list A) : Frame A :=
  mkFrame (index df) (<[c := v]> (columns df)).

(** [df[[c1, ..., cn]]]: a new table with the listed columns. *)
Fixpoint select_cols {A : Type} (df : Frame A) (cs : list string)
  : result (gmap string (list A)) :=
  match cs with
  | [] => ok ∅
  | c :: cs' =>
      v ← getcol df c;
      m ← select_cols df cs';
      ok (<[c := v]> m)
  end.

Definition select {A : Type} (df : Frame A) (cs : list string) : result (Frame A) :=
  m ← select_cols df cs;
  ok (mkFrame (index df) m).

(** [left.join(right)] on equal indexes without repeated labels.  The
    tables the code joins have fixed column names, no two of them equal, so
    no name is found on both sides. *)
Definition join {A : Type} (l r : Frame A) : Frame A :=
  mkFrame (index l) (columns l ∪ columns r).

(** A table is well formed when every column has one entry per index label,
    as pandas guarantees for every DataFrame. *)
Definition wf_frame {A : Type} (df : Frame A) : Prop :=
  forall c v, columns df !! c = Some v -> length v = nrows df.

(** ** The inverter object *)

(** A cell of the table of quadratic roots: [np.roots] returns a float64
    or a complex128 array, and the code writes [np.nan] for a missing
    root.  In a column of dtype complex128 a missing root is the complex
    number nan+0j. *)
Inductive cell : Type :=
  | Float (x : R)
  | Complex (re im : R)
  | NaN
  | ComplexNaN.

Record ARI : Type := mkARI {
  verbose : bool;
  save_data : bool;
  return_data : bool;
  method : string;
  lambda_reg : R;
  tolerance : R;
  maxiter : nat;
  x0 : R * R;
  Wd_matrix : bool;
  n_ensemble : nat;
  noise_lvl : R;
  (* attributes that the methods create *)
  res_inv : option DataFrame;
  quad_inv : option (Frame cell)
}.

(** [ARI.__init__] (the GPU report prints and returns None). *)
Definition ARI_init : ARI :=
  {| verbose := true; save_data := true; return_data := true;
     method := "L-BFGS-B"; lambda_reg := 1e-4; tolerance := 1e-3;
     maxiter := 100; x0 := (0.5, 1.5); Wd_matrix := true;
     n_ensemble := 100; noise_lvl := 10;
     res_inv := None; quad_inv := None |}.

Definition set_res_inv (self : ARI) (t : DataFrame) : ARI :=
  {| verbose := verbose self; save_data := save_data self;
     return_data := return_data self; method := method self;
     lambda_reg := lambda_reg self; tolerance := tolerance self;
     maxiter := maxiter self; x0 := x0 self; Wd_matrix := Wd_matrix self;
     n_ensemble := n_ensemble self; noise_lvl := noise_lvl self;
     res_inv := Some t; quad_inv := quad_inv self |}.

Definition set_quad_inv (self : ARI) (t : Frame cell) : ARI :=
  {| verbose := verbose self; save_data := save_data self;
     return_data := return_data self; method := method self;
     lambda_reg := lambda_reg self; tolerance := tolerance self;
     maxiter := maxiter self; x0 := x0 self; Wd_matrix := Wd_matrix self;
     n_ensemble := n_ensemble self; noise_lvl := noise_lvl self;
     res_inv := res_inv self; quad_inv := Some t |}.

(** ** The end member (lines 103-106 and 155-158) *)

(** [df[col].iloc[np.argmax(df['GR'])]] unless a value is supplied. *)
Definition end_member_value (df : DataFrame) (col : string) (given : option R)
  : result R :=
  match given with
  | Some r => ok r
  | None =>
      v ← getcol df col;
      gr ← getcol df "GR";
      k ← np_argmax gr;
      iloc v k
  end.

Definition end_member (df : DataFrame) (Rvsh Rhsh : option R) : result (R * R) :=
  rvsh ← end_member_value df "Rv" Rvsh;
  rhsh ← end_member_value df "Rh" Rhsh;
  ok (rvsh, rhsh).

(** ** The nonlinear inversion *)

(** [objective], the closure of [resistivity_inversion] (lines 108-114);
    [args] is the pair (Rv, Rh). *)
Definition objective (self : ARI) (Rvsh Rhsh : R) (variables : R * R) (Rv Rh : R) : R :=
  let '(Csh, Rs) := variables in
  let eq1 := (Csh * Rvsh + (1 - Csh) * Rs) - Rv in
  let eq2 := (Csh / Rhsh + (1 - Csh) / Rs) - (1 / Rh) in
  let eqs := if Wd_matrix self then [eq1 / Rv; eq2 * Rh] else [eq1; eq2] in
  linalg_norm eqs + lambda_reg self * linalg_norm [Csh; Rs].

(** ** scipy.optimize.minimize *)

(** The fields of the OptimizeResult that the code reads. *)
Record OptimizeResult : Type := mkOptimizeResult {
  res_x : R * R;
  res_fun : R;
  res_jac : R * R;
  res_nfev : nat
}.

(** One entry of [bounds]: (lower, upper), None for no bound. *)
Definition bound : Type := option R * option R.

Definition in_bound (b : bound) (x : R) : Prop :=
  match fst b with Some lo => lo <= x | None => True end /\
  match snd b with Some hi => x <= hi | None => True end.

(** [optimize.minimize(fun, x0=, args=, bounds=, method=, tol=,
    options={'maxiter': }]: the function is passed already applied to
    [args]. *)
Definition minimizer : Type :=
  (R * R -> R) -> R * R -> bound * bound -> string -> R -> nat -> OptimizeResult.

Definition feasible (b : bound) : Prop :=
  match b with
  | (Some lo, Some hi) => lo <= hi
  | _ => True
  end.

(** The contract of a method that supports box bounds (L-BFGS-B, the
    constructor's choice, is one): for a non-empty box, the point returned
    lies in the box. *)
Definition honours_bounds (minimize : minimizer) (meth : string) : Prop :=
  forall f x_0 bounds tol iters,
    feasible (fst bounds) -> feasible (snd bounds) ->
    let x := res_x (minimize f x_0 bounds meth tol iters) in
    in_bound (fst bounds) (fst x) /\ in_bound (snd bounds) (snd x).

Section NonlinearInversion.

Variable minimize : minimizer.

(** The body of the loop of [inversion] up to the call (lines 119-126). *)
Definition solve_row (self : ARI) (Rvsh Rhsh : R) (row : R * R) : OptimizeResult :=
  let '(Rv_value, Rh_value) := row in
  minimize (fun variables => objective self Rvsh Rhsh variables Rv_value Rh_value)
           (x0 self)
           ((Some 0, Some 1), (None, None))
           (method self)
           (tolerance self)
           (maxiter self).

(** [inversion] (lines 115-132).  The lists that the loop appends to are
    the images of the rows; [jac1] and [jac2] are bound inside the loop,
    so a table without rows raises at line 131. *)
Definition inversion (self : ARI) (Rvsh Rhsh : R) (df : DataFrame) : result DataFrame :=
  res_aniso ← select df ["Rv"; "Rh"];
  Rv ← getcol res_aniso "Rv";
  Rh ← getcol res_aniso "Rh";
  let rows := zip Rv Rh in
  let solutions := fmap (solve_row self Rvsh Rhsh) rows in
  let fun_ := fmap res_fun solutions in
  let jac := fmap res_jac solutions in
  let nfev := fmap (fun s => INR (res_nfev s)) solutions in
  let sol := mkFrame (index res_aniso)
               (<["Rv" := fmap fst rows]>
                (<["Rh" := fmap snd rows]>
                 (<["Csh" := fmap (fun s => fst (res_x s)) solutions]>
                  (<["Rs" := fmap (fun s => snd (res_x s)) solutions]> ∅)))) in
  match rows with
  | [] => raise (UnboundLocalError "jac1")
  | _ :: _ =>
      let jac1 := fmap fst jac in
      let jac2 := fmap snd jac in
      let sol := setcol sol "fun" fun_ in
      let sol := setcol sol "nfev" nfev in
      let sol := setcol sol "jac1" jac1 in
      let sol := setcol sol "jac2" jac2 in
      let sol := setcol sol "norm_jac"
                   (fmap (fun j => linalg_norm [fst j; snd j]) jac) in
      ok sol
  end.

(** [simulate] (lines 133-138) *)
Definition simulate (Rvsh Rhsh : R) (sol : DataFrame) : result DataFrame :=
  Csh ← getcol sol "Csh";
  Rs ← getcol sol "Rs";
  let Rv_sim := zip_with (fun csh rs => csh * Rvsh + (1 - csh) * rs) Csh Rs in
  let Rh_sim := zip_with (fun csh rs => csh / Rhsh + (1 - csh) / rs) Csh Rs in
  ok (mkFrame (index sol)
        (<["Rv_sim" := Rv_sim]>
         (<["Rh_sim" := fmap (fun r => 1 / r) Rh_sim]> ∅))).

(** [error] (lines 139-145) *)
Definition error (sol sim : DataFrame) : result DataFrame :=
  Rv_true ← getcol sol "Rv";
  Rh_true ← getcol sol "Rh";
  Rv_pred ← getcol sim "Rv_sim";
  Rh_pred ← getcol sim "Rh_sim";
  let Rv_err := zip_with (fun p t => Rabs ((p - t) / t) * 100) Rv_pred Rv_true in
  let Rh_err := zip_with (fun p t => Rabs ((p - t) / t) * 100) Rh_pred Rh_true in
  ok (mkFrame (index sol)
        (<["Rv_err" := Rv_err]> (<["Rh_err" := Rh_err]> ∅))).

(** The gamma-ray proxy written at line 107. *)
Definition csh_lin (gr : list R) : list R :=
  fmap (fun g => (g - series_min gr) / (series_max gr - series_min gr)) gr.

(** [resistivity_inversion] (lines 102-151).  The value is the updated
    inverter, the table [df] as the call leaves it, and the table
    returned. *)
Definition resistivity_inversion (self : ARI) (df : DataFrame) (Rvsh Rhsh : option R)
  : result (ARI * DataFrame * DataFrame) :=
  sh ← end_member df Rvsh Rhsh;
  gr ← getcol df "GR";
  let df := setcol df "Csh_lin" (csh_lin gr) in
  val ← select df ["AT10"; "AT30"; "AT60"; "AT90"; "GR"; "Csh_lin"];
  sol ← inversion self sh.1 sh.2 df;
  sim ← simulate sh.1 sh.2 sol;
  err ← error sol sim;
  let res := join (join (join val sol) sim) err in
  ok (set_res_inv self res, df, res).

End NonlinearInversion.

(** ** The dtype of a column *)

(** [pd.DataFrame(rows, index=...)] builds each column from the values the
    rows hold for it and gives the column one dtype: float64 when every
    value is a float, complex128 as soon as one value is complex.  In a
    complex128 column a float x is stored as x+0j and [np.nan] as
    nan+0j. *)
Definition is_complex (c : cell) : bool :=
  match c with
  | Complex _ _ | ComplexNaN => true
  | Float _ | NaN => false
  end.

Definition as_complex (c : cell) : cell :=
  match c with
  | Float x => Complex x 0
  | NaN => ComplexNaN
  | Complex _ _ | ComplexNaN => c
  end.

Definition column_of (values : list cell) : list cell :=
  if existsb is_complex values then as_complex <$> values else values.

(** ** numpy.roots *)

(** A one-dimensional array of dtype float64 or complex128; a complex
    number is its real and imaginary part. *)
Inductive ndarray : Type :=
  | FloatArray (v : list R)
  | ComplexArray (v : list (R * R)).

Definition array_len (a : ndarray) : nat :=
  match a with
  | FloatArray v => length v
  | ComplexArray v => length v
  end.

(** The entries of an array as table cells. *)
Definition cells (a : ndarray) : list cell :=
  match a with
  | FloatArray v => fmap Float v
  | ComplexArray v => fmap (fun z => Complex z.1 z.2) v
  end.

(** [np.hstack((roots, np.zeros(n, roots.dtype)))] *)
Definition hstack_zeros (a : ndarray) (n : nat) : ndarray :=
  match a with
  | FloatArray v => FloatArray (v ++ replicate n 0)
  | ComplexArray v => ComplexArray (v ++ replicate n (0, 0))
  end.

Definition is_zero (x : R) : bool := if Req_dec_T x 0 then true else false.

(** The companion matrix that [np.roots] builds for the stripped
    coefficients [p] (of length N > 1): ones below the diagonal and
    [-p[1:] / p[0]] as the first row. *)
Definition companion (p : list R) : list (list R) :=
  match p with
  | [] => []
  | p0 :: rest =>
      match length rest with
      | O => []
      | S n' =>
          fmap (fun c => - c / p0) rest ::
          fmap (fun i => fmap (fun j => if Nat.eqb j i then 1 else 0) (seq 0 (S n')))
              (seq 0 n')
      end
  end.

(** Leading zeros of a coefficient list: dropped, and counted. *)
Fixpoint strip_zeros (p : list R) : list R :=
  match p with
  | [] => []
  | c :: p' => if is_zero c then strip_zeros p' else p
  end.

Fixpoint count_zeros (p : list R) : nat :=
  match p with
  | [] => O
  | c :: p' => if is_zero c then S (count_zeros p') else O
  end.

Section Roots.

(** [numpy.linalg.eigvals] of a real square matrix: a float64 array when
    every eigenvalue is real, a complex128 array otherwise. *)
Variable eigvals : list (list R) -> ndarray.

(** [np.roots(p)] for a list of real coefficients, highest degree first. *)
Definition np_roots (p : list R) : ndarray :=
  let stripped_front := strip_zeros p in
  match stripped_front with
  | [] => FloatArray []                     (* all coefficients are zero *)
  | _ :: _ =>
      let trailing_zeros := count_zeros (rev p) in
      let p' := take (length stripped_front - trailing_zeros) stripped_front in
      let roots :=
        if Nat.ltb 1 (length p') then eigvals (companion p') else FloatArray [] in
      hstack_zeros roots trailing_zeros
  end.

(** The body of the loop of [quadratic_inversion] (lines 160-170): the
    dictionary appended for one row. *)
Definition quadratic_row (Rvsh Rhsh : R) (row : R * R) : cell * cell :=
  let '(Rv, Rh) := row in
  let a := Rh * Rvsh - Rh * Rhsh in
  let b := Rv ^ 2 + Rvsh * Rhsh - 2 * Rh * Rhsh in
  let c := Rv * Rhsh - Rh * Rhsh in
  let qsol := np_roots [a; b; c] in
  match cells qsol with
  | [q0] => (q0, NaN)
  | [q0; q1] => (q0, q1)
  | _ => (NaN, NaN)
  end.

(** [quadratic_inversion] (lines 153-172).  The rows are read inside the
    loop, so a table without rows is never asked for its columns.  The
    table is built at line 171 from the list of the dictionaries, column
    by column.  The value is the updated inverter and the table
    returned. *)
Definition quadratic_inversion (self : ARI) (df : DataFrame) (Rvsh Rhsh : option R)
  : result (ARI * Frame cell) :=
  sh ← end_member df Rvsh Rhsh;
  quad ← match nrows df with
          | O => ok []
          | S _ =>
              Rv ← getcol df "Rv";
              Rh ← getcol df "Rh";
              ok (fmap (quadratic_row sh.1 sh.2) (zip Rv Rh))
          end;
  let t := match quad with
           | [] => mkFrame (index df) ∅
           | _ :: _ =>
               mkFrame (index df)
                 (<["Csh_q1" := column_of (fmap fst quad)]>
                  (<["Csh_q2" := column_of (fmap snd quad)]> ∅))
           end in
  ok (set_quad_inv self t, t).

End Roots.

(** ** The nonlinear inversion when the objective raises *)

(** [linalg.norm] checks that its argument is finite and raises ValueError
    when it is not (line 114).  Over exact arithmetic the residual fails
    to be finite exactly when one of its quotients has a zero divisor:
    Rhsh, Rs or Rh, and Rv when the weighting is on. *)
Definition residual_is_finite (self : ARI) (Rhsh : R) (variables : R * R) (Rv Rh : R)
  : bool :=
  let '(_, Rs) := variables in
  negb (is_zero Rhsh) && negb (is_zero Rs) && negb (is_zero Rh)
  && (negb (Wd_matrix self) || negb (is_zero Rv)).

Definition objective_checked (self : ARI) (Rvsh Rhsh : R) (variables : R * R) (Rv Rh : R)
  : result R :=
  if residual_is_finite self Rhsh variables Rv Rh
  then ok (objective self Rvsh Rhsh variables Rv Rh)
  else raise (ValueError "array must not contain infs or NaNs").

(** [optimize.minimize] for an objective that can raise: an exception of
    the objective leaves the call. *)
Definition minimizer_checked : Type :=
  (R * R -> result R) -> R * R -> bound * bound -> string -> R -> nat
  -> result OptimizeResult.

(** A method evaluates the objective before it returns: when the objective
    raises [e] wherever it is evaluated, so does the call. *)
Definition evaluates_objective (minimize : minimizer_checked) (meth : string) : Prop :=
  forall f x_0 bounds tol iters e,
    feasible (fst bounds) -> feasible (snd bounds) ->
    (forall x, f x = raise e) ->
    minimize f x_0 bounds meth tol iters = raise e.

Section NonlinearInversionChecked.

Variable minimize : minimizer_checked.

(** The call of lines 120-126. *)
Definition solve_row_checked (self : ARI) (Rvsh Rhsh : R) (row : R * R)
  : result OptimizeResult :=
  let '(Rv_value, Rh_value) := row in
  minimize (fun variables => objective_checked self Rvsh Rhsh variables Rv_value Rh_value)
           (x0 self)
           ((Some 0, Some 1), (None, None))
           (method self)
           (tolerance self)
           (maxiter self).

(** The loop of [inversion] (lines 118-128): the rows are solved in order,
    and an exception of a call ends the loop and the run. *)
Fixpoint solve_rows (self : ARI) (Rvsh Rhsh : R) (rows : list (R * R))
  : result (list OptimizeResult) :=
  match rows with
  | [] => ok []
  | row :: rows' =>
      solution ← solve_row_checked self Rvsh Rhsh row;
      solutions ← solve_rows self Rvsh Rhsh rows';
      ok (solution :: solutions)
  end.

(** [inversion] (lines 115-132) *)
Definition inversion_checked (self : ARI) (Rvsh Rhsh : R) (df : DataFrame)
  : result DataFrame :=
  res_aniso ← select df ["Rv"; "Rh"];
  Rv ← getcol res_aniso "Rv";
  Rh ← getcol res_aniso "Rh";
  let rows := zip Rv Rh in
  solutions ← solve_rows self Rvsh Rhsh rows;
  let fun_ := fmap res_fun solutions in
  let jac := fmap res_jac solutions in
  let nfev := fmap (fun s => INR (res_nfev s)) solutions in
  let sol := mkFrame (index res_aniso)
               (<["Rv" := fmap fst rows]>
                (<["Rh" := fmap snd rows]>
                 (<["Csh" := fmap (fun s => fst (res_x s)) solutions]>
                  (<["Rs" := fmap (fun s => snd (res_x s)) solutions]> ∅)))) in
  match rows with
  | [] => raise (UnboundLocalError "jac1")
  | _ :: _ =>
      let jac1 := fmap fst jac in
      let jac2 := fmap snd jac in
      let sol := setcol sol "fun" fun_ in
      let sol := setcol sol "nfev" nfev in
      let sol := setcol sol "jac1" jac1 in
      let sol := setcol sol "jac2" jac2 in
      let sol := setcol sol "norm_jac"
                   (fmap (fun j => linalg_norm [fst j; snd j]) jac) in
      ok sol
  end.

(** [resistivity_inversion] (lines 102-151) *)
Definition resistivity_inversion_checked (self : ARI) (df : DataFrame)
    (Rvsh Rhsh : option R) : result (ARI * DataFrame * DataFrame) :=
  sh ← end_member df Rvsh Rhsh;
  gr ← getcol df "GR";
  let df := setcol df "Csh_lin" (csh_lin gr) in
  val ← select df ["AT10"; "AT30"; "AT60"; "AT90"; "GR"; "Csh_lin"];
  sol ← inversion_checked self sh.1 sh.2 df;
  sim ← simulate sh.1 sh.2 sol;
  err ← error sol sim;
  let res := join (join (join val sol) sim) err in
  ok (set_res_inv self res, df, res).

End NonlinearInversionChecked.

(** ** Uncertainty quantification *)

Section UQ.

Variable minimize : minimizer.

(** The state of numpy's global generator and one standard-normal draw
    from it; [np.random.normal(0, 1, n)] draws n times in sequence. *)
Variable RNG : Type.
Variable gauss : RNG -> R * RNG.

Fixpoint random_normal (n : nat) (g : RNG) : list R * RNG :=
  match n with
  | O => ([], g)
  | S n' =>
      let '(x, g1) := gauss g in
      let '(xs, g2) := random_normal n' g1 in
      (x :: xs, g2)
  end.

(** The noise vectors of [n] successive realizations of [m] samples. *)
Fixpoint draws (n m : nat) (g : RNG) : list (list R) :=
  match n with
  | O => []
  | S n' =>
      let '(e, g') := random_normal m g in
      e :: draws n' m g'
  end.

(** Lines 181-185: the noisy copy of [df] for the draw [e]. *)
Definition add_noise (self : ARI) (df : DataFrame) (sigma_v sigma_h : R) (e : list R)
  : result DataFrame :=
  let df_noise := df in
  Rv ← getcol df "Rv";
  let df_noise :=
    setcol df_noise "Rv"
      (zip_with (fun r n => r + n * (noise_lvl self / 100) * sigma_v) Rv e) in
  Rh ← getcol df "Rh";
  let df_noise :=
    setcol df_noise "Rh"
      (zip_with (fun r n => r + n * (noise_lvl self / 100) * sigma_h) Rh e) in
  ok df_noise.

(** The loop of [inversion_uq] (lines 180-188), [n] iterations to go. *)
Fixpoint uq_loop (n : nat) (self : ARI) (df : DataFrame) (sigma_v sigma_h : R)
  (g : RNG) (realizations : list DataFrame) : result (ARI * RNG * list DataFrame) :=
  match n with
  | O => ok (self, g, realizations)
  | S n' =>
      let '(e, g') := random_normal (nrows df) g in
      df_noise ← add_noise self df sigma_v sigma_h e;
      r ← resistivity_inversion minimize self df_noise None None;
      let '(self', _, df_inv) := r in
      uq_loop n' self' df sigma_v sigma_h g' (realizations ++ [df_inv])
  end.

(** [inversion_uq] (lines 174-189) *)
Definition inversion_uq (self : ARI) (df : DataFrame) (g : RNG)
  : result (ARI * RNG * list DataFrame) :=
  Rv ← getcol df "Rv";
  Rh ← getcol df "Rh";
  let sigma_v := np_std Rv in
  let sigma_h := np_std Rh in
  uq_loop (n_ensemble self) self df sigma_v sigma_h g [].

End UQ.

Arguments random_normal {RNG} gauss n g.
Arguments draws {RNG} gauss n m g.
Arguments uq_loop minimize {RNG} gauss n self df sigma_v sigma_h g realizations.
Arguments inversion_uq minimize {RNG} gauss self df g.

(** Two states of the inverter with the same options: they differ at most
    in the tables the methods have stored. *)
Definition same_options (a b : ARI) : Prop :=
  method a = method b /\ lambda_reg a = lambda_reg b /\
  tolerance a = tolerance b /\ maxiter a = maxiter b /\ x0 a = x0 b /\
  Wd_matrix a = Wd_matrix b /\ n_ensemble a = n_ensemble b /\
  noise_lvl a = noise_lvl b.

(** [out] is the table of one realization for the noise vector [e]: what
    [resistivity_inversion], called with the noisy copy of [df] and no end
    member, returns to [inversion_uq]. *)
Definition is_realization (minimize : minimizer) (self : ARI) (df : DataFrame)
    (sigma_v sigma_h : R) (e : list R) (out : DataFrame) : Prop :=
  exists self_j df_noise self' df',
    same_options self_j self /\
    add_noise self df sigma_v sigma_h e = ok df_noise /\
    resistivity_inversion minimize self_j df_noise None None = ok (self', df', out).

(** ** The ensemble of Csh curves *)

(** Lines 192-195 of [process_and_plot_uq]: the Csh column of the
    realizations 0, ..., n_ensemble - 1, one row of the array each.  The
    dictionary is filled with the keys in increasing order, so its values
    are the rows in that order.  The figure drawn from the array is not
    modelled. *)
Fixpoint csh_rows (case_uq : list DataFrame) (i n : nat) : result (list (list R)) :=
  match n with
  | O => ok []
  | S n' =>
      match case_uq !! i with
      | None => raise IndexError
      | Some t =>
          v ← getcol t "Csh";
          rest ← csh_rows case_uq (S i) n';
          ok (v :: rest)
      end
  end.

Definition csh_ensemble (self : ARI) (case_uq : list DataFrame) : result (list (list R)) :=
  csh_rows case_uq 0 (n_ensemble self).

(** ** Input tables *)

(** The columns [load_data] gives a case, all of which
    [resistivity_inversion] reads. *)
Definition input_columns : list string :=
  ["AT10"; "AT30"; "AT60"; "AT90"; "GR"; "Rv"; "Rh"].

(** A table of samples: a well-formed DataFrame with the input columns and
    at least one row. *)
Definition sample_table (df : DataFrame) : Prop :=
  (forall c, c ∈ input_columns -> is_Some (columns df !! c)) /\
  wf_frame df /\
  (0 < nrows df)%nat.

(** ** The contract of the eigenvalue routine *)

(** [z] is a root of a*x^2 + b*x + c; a complex z = re + i*im is one when
    the real and the imaginary part of the polynomial's value vanish. *)
Definition is_root (a b c : R) (z : cell) : Prop :=
  match z with
  | Float x => a * (x * x) + b * x + c = 0
  | Complex re im =>
      a * (re * re - im * im) + b * re + c = 0 /\ a * (2 * re * im) + b * im = 0
  | NaN | ComplexNaN => False
  end.

(** What the code relies on of [eigvals]: the eigenvalue of a 1x1 matrix is
    its entry, and for a 2x2 companion matrix it returns two numbers, each
    a root of the characteristic polynomial x^2 - p*x - q. *)
Definition eigvals_spec (eigvals : list (list R) -> ndarray) : Prop :=
  (forall m, eigvals [[m]] = FloatArray [m]) /\
  (forall p q, exists z1 z2,
      cells (eigvals [[p; q]; [1; 0]]) = [z1; z2] /\
      is_root 1 (- p) (- q) z1 /\ is_root 1 (- p) (- q) z2).

(** ** Instances of the library parameters, and sample tables *)

(** The examples below run the code with these stand-ins for the library
    routines; each meets the contract the theorems assume. *)

Definition clip (b : bound) (x : R) : R :=
  let x := match fst b with Some lo => Rmax lo x | None => x end in
  match snd b with Some hi => Rmin hi x | None => x end.

(** A solver that stops at once: Csh is the starting value and Rs is [rs],
    both clipped to the box. *)
Definition minimize_to (rs : R) : minimizer :=
  fun f x_0 bounds _ _ _ =>
    let x := (clip bounds.1 x_0.1, clip bounds.2 rs) in
    {| res_x := x; res_fun := f x; res_jac := (0, 0); res_nfev := 1%nat |}.

(** The same solver for an objective that can raise: it evaluates the
    objective at the point it returns. *)
Definition minimize_checked_to (rs : R) : minimizer_checked :=
  fun f x_0 bounds _ _ _ =>
    let x := (clip bounds.1 x_0.1, clip bounds.2 rs) in
    value ← f x;
    ok {| res_x := x; res_fun := value; res_jac := (0, 0); res_nfev := 1%nat |}.

(** Eigenvalues of a 1x1 and of a 2x2 real matrix in closed form. *)
Definition eigvals_closed_form (M : list (list R)) : ndarray :=
  match M with
  | [[m]] => FloatArray [m]
  | [[p; q]; [r; s]] =>
      let tr := p + s in
      let det := p * s - q * r in
      let disc := tr * tr - 4 * det in
      if Rle_dec 0 disc
      then FloatArray [(tr + sqrt disc) / 2; (tr - sqrt disc) / 2]
      else ComplexArray [(tr / 2, sqrt (- disc) / 2); (tr / 2, - sqrt (- disc) / 2)]
  | _ => FloatArray []
  end.

(** A generator that reads its draws from a tape. *)
Definition tape_gauss (g : list R) : R * list R := (hd 0 g, tl g).

(** Two samples of a log; the second has the larger gamma-ray value. *)
Definition two_samples (Rv Rh : list R) : DataFrame :=
  mkFrame [1000; 1000.5]
    (<["AT10" := [2; 3]]>
     (<["AT30" := [2; 3]]>
      (<["AT60" := [2; 3]]>
       (<["AT90" := [2; 3]]>
        (<["GR" := [50; 80]]>
         (<["Rv" := Rv]>
          (<["Rh" := Rh]> ∅))))))).

Definition df_clean : DataFrame := two_samples [3; 4] [2; 1].


(** The second sample has a zero Rh. *)
Definition df_zero : DataFrame := two_samples [3; 4] [2; 0].

(** A table of solutions with one row. *)
Definition sol_one_row : DataFrame :=
  mkFrame [1000]
    (<["Rv" := [4]]> (<["Rh" := [2]]> (<["Csh" := [0.5]]> (<["Rs" := [1]]> ∅)))).

(** * Properties *)

(** ** The objective function *)

(** C1.  At (Csh, Rs) the objective of the nonlinear solver is the Euclidean
    norm of the residual vector [w1*eq1, w2*eq2] plus lambda_reg times the
    Euclidean norm of (Csh, Rs), where eq1 = Csh*Rvsh + (1-Csh)*Rs - Rv and
    eq2 = Csh/Rhsh + (1-Csh)/Rs - 1/Rh, with w1 = 1/Rv and w2 = Rh when the
    weighting is on and w1 = w2 = 1 when it is off. *)
Theorem objective_weighted_residual_norm (self : ARI) (Rvsh Rhsh Csh Rs Rv Rh : R) :
  let eq1 := Csh * Rvsh + (1 - Csh) * Rs - Rv in
  let eq2 := Csh / Rhsh + (1 - Csh) / Rs - 1 / Rh in
  let w1 := if Wd_matrix self then 1 / Rv else 1 in
  let w2 := if Wd_matrix self then Rh else 1 in
  objective self Rvsh Rhsh (Csh, Rs) Rv Rh =
    linalg_norm [w1 * eq1; w2 * eq2] + lambda_reg self * linalg_norm [Csh; Rs].
Proof.
  intros eq1 eq2 w1 w2. unfold objective.
  fold eq1 eq2. f_equal.
  subst w1 w2. destruct (Wd_matrix self).
  - do 2 f_equal; [unfold Rdiv; ring | f_equal; ring].
  - do 2 f_equal; [ring | f_equal; ring].
Qed.

(** ** The forward simulator and the error metric *)

Lemma getcol_ok {A : Type} (df : Frame A) (c : string) (v : list A) :
  columns df !! c = Some v -> getcol df c = ok v.
Proof. intros H. unfold getcol. by rewrite H. Qed.

(** C5.  For a table of solutions with columns Csh, Rs, Rv and Rh and an
    end member (Rvsh, Rhsh), the forward simulator returns, row by row,
    Rv_sim = Csh*Rvsh + (1-Csh)*Rs and Rh_sim = 1/(Csh/Rhsh + (1-Csh)/Rs),
    and the error metric returns |(Rv_sim - Rv)/Rv| * 100 and
    |(Rh_sim - Rh)/Rh| * 100 against the measured values. *)
Theorem simulate_error_formulas (Rvsh Rhsh : R) (sol : DataFrame)
    (Csh Rs Rv Rh : list R) :
  columns sol !! "Csh" = Some Csh ->
  columns sol !! "Rs" = Some Rs ->
  columns sol !! "Rv" = Some Rv ->
  columns sol !! "Rh" = Some Rh ->
  exists sim err,
    simulate Rvsh Rhsh sol = ok sim /\
    error sol sim = ok err /\
    forall i csh rs rv rh,
      Csh !! i = Some csh -> Rs !! i = Some rs ->
      Rv !! i = Some rv -> Rh !! i = Some rh ->
      let Rv_sim := csh * Rvsh + (1 - csh) * rs in
      let Rh_sim := 1 / (csh / Rhsh + (1 - csh) / rs) in
      at_row sim "Rv_sim" i = Some Rv_sim /\
      at_row sim "Rh_sim" i = Some Rh_sim /\
      at_row err "Rv_err" i = Some (Rabs ((Rv_sim - rv) / rv) * 100) /\
      at_row err "Rh_err" i = Some (Rabs ((Rh_sim - rh) / rh) * 100).
Proof.
  intros HCsh HRs HRv HRh.
  unfold simulate, error.
  rewrite (getcol_ok _ _ _ HCsh), (getcol_ok _ _ _ HRs). simpl.
  rewrite (getcol_ok _ _ _ HRv), (getcol_ok _ _ _ HRh). simpl.
  do 2 eexists. split; [reflexivity|]. split; [reflexivity|].
  intros i csh rs rv rh Hc Hs Hv Hh. cbv zeta.
  unfold at_row; simpl.
  rewrite !lookup_insert_eq. 
  rewrite (lookup_insert_ne _ "Rv_sim" "Rh_sim") by done.
  rewrite (lookup_insert_ne _ "Rv_err" "Rh_err") by done.
  rewrite !lookup_insert_eq. simpl.
  rewrite !lookup_zip_with, !list_lookup_fmap, !lookup_zip_with.
  rewrite Hc, Hs, Hv, Hh. simpl. done.
Qed.

Lemma simulate_error_formulas_witness :
  exists sim err,
    simulate 6 3 sol_one_row = ok sim /\
    error sol_one_row sim = ok err /\
    forall i csh rs rv rh,
      [0.5] !! i = Some csh -> [1] !! i = Some rs ->
      [4] !! i = Some rv -> [2] !! i = Some rh ->
      let Rv_sim := csh * 6 + (1 - csh) * rs in
      let Rh_sim := 1 / (csh / 3 + (1 - csh) / rs) in
      at_row sim "Rv_sim" i = Some Rv_sim /\
      at_row sim "Rh_sim" i = Some Rh_sim /\
      at_row err "Rv_err" i = Some (Rabs ((Rv_sim - rv) / rv) * 100) /\
      at_row err "Rh_err" i = Some (Rabs ((Rh_sim - rh) / rh) * 100).
Proof.
  apply (simulate_error_formulas 6 3 sol_one_row [0.5] [1] [4] [2]); reflexivity.
Defined.

(** ** The quadratic inversion *)

Lemma is_zero_true (x : R) : x = 0 -> is_zero x = true.
Proof. intros ->. unfold is_zero. destruct (Req_dec_T 0 0); [done | lra]. Qed.

Lemma is_zero_false (x : R) : x <> 0 -> is_zero x = false.
Proof. intros H. unfold is_zero. destruct (Req_dec_T x 0); [lra | done]. Qed.

Ltac zeros :=
  repeat match goal with
    | H : ?x = 0 |- context [is_zero ?x] => rewrite (is_zero_true x H)
    | H : ?x <> 0 |- context [is_zero ?x] => rewrite (is_zero_false x H)
    end.

Lemma is_root_scale (a b c : R) (z : cell) :
  a <> 0 -> is_root 1 (- (- b / a)) (- (- c / a)) z -> is_root a b c z.
Proof.
  intros Ha. destruct z as [x|re im| |]; simpl; [| |done|done].
  - intros H. replace (a * (x * x) + b * x + c)
      with (a * (1 * (x * x) + - (- b / a) * x + - (- c / a))) by (field; done).
    rewrite H. ring.
  - intros [H1 H2]. split.
    + replace (a * (re * re - im * im) + b * re + c)
        with (a * (1 * (re * re - im * im) + - (- b / a) * re + - (- c / a)))
        by (field; done).
      rewrite H1. ring.
    + replace (a * (2 * re * im) + b * im)
        with (a * (1 * (2 * re * im) + - (- b / a) * im)) by (field; done).
      rewrite H2. ring.
Qed.

(** A polynomial of degree two has two roots in the array. *)
Lemma np_roots_degree2 eigvals (a b c : R) :
  eigvals_spec eigvals -> a <> 0 ->
  exists z1 z2,
    cells (np_roots eigvals [a; b; c]) = [z1; z2] /\
    is_root a b c z1 /\ is_root a b c z2.
Proof.
  intros [H1 H2] Ha. unfold np_roots. simpl. zeros.
  destruct (Req_dec_T c 0) as [Hc|Hc]; zeros.
  - destruct (Req_dec_T b 0) as [Hb|Hb]; zeros; simpl.
    + exists (Float 0), (Float 0). subst. simpl. split; [done|]. split; ring.
    + rewrite H1. simpl. exists (Float (- b / a)), (Float 0).
      subst. simpl. split; [done|]. split; [field; done | ring].
  - simpl. destruct (H2 (- b / a) (- c / a)) as (z1 & z2 & Hz & Hz1 & Hz2).
    exists z1, z2. split.
    + destruct (eigvals _) as [v|v]; simpl in *; by rewrite app_nil_r.
    + split; by apply is_root_scale.
Qed.

(** A polynomial of degree one has one root, and one of degree zero (or
    the zero polynomial) none. *)
Lemma np_roots_degree1 eigvals (a b c : R) :
  eigvals_spec eigvals -> a = 0 -> b <> 0 ->
  np_roots eigvals [a; b; c] = FloatArray [- c / b].
Proof.
  intros [H1 H2] Ha Hb. unfold np_roots. simpl. zeros.
  destruct (Req_dec_T c 0) as [Hc|Hc]; zeros; simpl.
  - subst c. do 2 f_equal. field; done.
  - by rewrite H1.
Qed.

Lemma np_roots_degree0 eigvals (a b c : R) :
  a = 0 -> b = 0 -> np_roots eigvals [a; b; c] = FloatArray [].
Proof.
  intros Ha Hb. unfold np_roots. simpl. zeros.
  destruct (Req_dec_T c 0) as [Hc|Hc]; zeros; simpl; done.
Qed.

Lemma np_roots_shape eigvals (a b c : R) :
  eigvals_spec eigvals ->
  let qsol := cells (np_roots eigvals [a; b; c]) in
  Forall (is_root a b c) qsol /\
  (a <> 0 -> length qsol = 2%nat) /\
  (a = 0 -> b <> 0 -> length qsol = 1%nat) /\
  (a = 0 -> b = 0 -> qsol = []).
Proof.
  intros Hspec qsol. subst qsol.
  destruct (Req_dec_T a 0) as [Ha|Ha]; [destruct (Req_dec_T b 0) as [Hb|Hb]|].
  - rewrite np_roots_degree0 by done. simpl. repeat split; done.
  - rewrite np_roots_degree1 by done. simpl. repeat split; try done.
    apply Forall_singleton. simpl. subst a. field; done.
  - destruct (np_roots_degree2 eigvals a b c Hspec Ha) as (z1 & z2 & -> & Hz1 & Hz2).
    repeat split; try done. by repeat constructor.
Qed.

Lemma eigvals_closed_form_spec : eigvals_spec eigvals_closed_form.
Proof.
  split; [done|]. intros p q. unfold eigvals_closed_form.
  set (disc := (p + 0) * (p + 0) - 4 * (p * 0 - q * 1)).
  destruct (Rle_dec 0 disc) as [Hd|Hd].
  - pose proof (sqrt_sqrt disc Hd) as Hs. set (s := sqrt disc) in *.
    do 2 eexists. split; [reflexivity|]. unfold disc in Hs. simpl. split; nra.
  - assert (0 <= - disc) as Hd' by lra.
    pose proof (sqrt_sqrt (- disc) Hd') as Hs. set (s := sqrt (- disc)) in *.
    do 2 eexists. split; [reflexivity|]. unfold disc in Hs. simpl.
    repeat split; nra.
Qed.



(** With a leading coefficient that is not zero, both fields are roots. *)
Lemma quadratic_row_roots_aux eigvals (Rvsh Rhsh Rv Rh : R) :
  eigvals_spec eigvals ->
  let a := Rh * Rvsh - Rh * Rhsh in
  let b := Rv ^ 2 + Rvsh * Rhsh - 2 * Rh * Rhsh in
  let c := Rv * Rhsh - Rh * Rhsh in
  a <> 0 ->
  exists q0 q1,
    quadratic_row eigvals Rvsh Rhsh (Rv, Rh) = (q0, q1) /\
    is_root a b c q0 /\ is_root a b c q1.
Proof.
  intros Hspec a b c Ha.
  destruct (np_roots_degree2 eigvals a b c Hspec Ha) as (z1 & z2 & Hz & Hz1 & Hz2).
  exists z1, z2. split; [|done].
  unfold quadratic_row. fold a b c. by rewrite Hz.
Qed.

(** The root finder returns at most two roots of a quadratic. *)
Lemma np_roots_at_most_two eigvals (a b c : R) :
  eigvals_spec eigvals -> (array_len (np_roots eigvals [a; b; c]) <= 2)%nat.
Proof.
  intros Hspec.
  destruct (np_roots_shape eigvals a b c Hspec) as (_ & H2 & H1 & H0).
  assert (array_len (np_roots eigvals [a; b; c]) =
          length (cells (np_roots eigvals [a; b; c]))) as ->.
  { destruct (np_roots _ _); simpl; by rewrite length_fmap. }
  destruct (Req_dec_T a 0) as [Ha|Ha]; [destruct (Req_dec_T b 0) as [Hb|Hb]|].
  - rewrite H0 by done. simpl. lia.
  - rewrite H1 by done. lia.
  - rewrite H2 by done. lia.
Qed.

(** A complex root is kept as a complex value.  For Rvsh = 1, Rhsh = 2,
    Rv = 3 and Rh = 4 the quadratic is -4*x^2 - 5*x - 2, of discriminant
    -7: whatever eigenvalue routine meets the contract, both fields of the
    row are complex. *)
Lemma quadratic_row_complex_sample eigvals :
  eigvals_spec eigvals ->
  exists re1 im1 re2 im2,
    quadratic_row eigvals 1 2 (3, 4) = (Complex re1 im1, Complex re2 im2).
Proof.
  intros Hspec.
  destruct (quadratic_row_roots_aux eigvals 1 2 3 4 Hspec) as (q0 & q1 & Hst & H0 & H1);
    [lra|].
  rewrite Hst.
  assert (forall x, (4 * 1 - 4 * 2) * (x * x) + (3 ^ 2 + 1 * 2 - 2 * 4 * 2) * x
                      + (3 * 2 - 4 * 2) <> 0) as Hno_real.
  { intros x Hx. pose proof (Rle_0_sqr (2 * x + 5 / 4)) as Hsq.
    unfold Rsqr in Hsq. simpl in Hx. lra. }
  destruct q0 as [x| re1 im1| |]; simpl in H0; [by destruct (Hno_real x)| |done|done].
  destruct q1 as [x| re2 im2| |]; simpl in H1; [by destruct (Hno_real x)| |done|done].
  eauto.
Qed.

(** ** Columns, minima and maxima *)

Lemma foldl_Rmin_le (v : list R) (x : R) :
  foldl Rmin x v <= x /\ Forall (fun y => foldl Rmin x v <= y) v.
Proof.
  revert x. induction v as [|y v IH]; intros x; simpl.
  - split; [lra | constructor].
  - destruct (IH (Rmin x y)) as [H1 H2].
    pose proof (Rmin_l x y). pose proof (Rmin_r x y).
    split; [lra|]. constructor; [lra | done].
Qed.

Lemma foldl_Rmax_ge (v : list R) (x : R) :
  x <= foldl Rmax x v /\ Forall (fun y => y <= foldl Rmax x v) v.
Proof.
  revert x. induction v as [|y v IH]; intros x; simpl.
  - split; [lra | constructor].
  - destruct (IH (Rmax x y)) as [H1 H2].
    pose proof (Rmax_l x y). pose proof (Rmax_r x y).
    split; [lra|]. constructor; [lra | done].
Qed.

Lemma series_min_le (v : list R) (y : R) : y ∈ v -> series_min v <= y.
Proof.
  destruct v as [|x v]; [by intros ?%elem_of_nil|].
  intros Hy. simpl. destruct (foldl_Rmin_le v x) as [H1 H2].
  apply elem_of_cons in Hy as [->|Hy]; [done|].
  rewrite Forall_forall in H2. by apply H2.
Qed.

Lemma series_max_ge (v : list R) (y : R) : y ∈ v -> y <= series_max v.
Proof.
  destruct v as [|x v]; [by intros ?%elem_of_nil|].
  intros Hy. simpl. destruct (foldl_Rmax_ge v x) as [H1 H2].
  apply elem_of_cons in Hy as [->|Hy]; [done|].
  rewrite Forall_forall in H2. by apply H2.
Qed.

Lemma series_min_lt_max (v : list R) (x y : R) :
  x ∈ v -> y ∈ v -> x <> y -> series_min v < series_max v.
Proof.
  intros Hx Hy Hne.
  pose proof (series_min_le v x Hx). pose proof (series_min_le v y Hy).
  pose proof (series_max_ge v x Hx). pose proof (series_max_ge v y Hy).
  destruct (Rtotal_order x y) as [?|[?|?]]; lra.
Qed.

Lemma csh_lin_unit_interval (gr : list R) :
  series_min gr < series_max gr ->
  Forall (fun x => 0 <= x <= 1) (csh_lin gr).
Proof.
  intros Hlt. unfold csh_lin. rewrite Forall_fmap, Forall_forall.
  intros g Hg. simpl.
  pose proof (series_min_le gr g Hg). pose proof (series_max_ge gr g Hg).
  assert (0 < series_max gr - series_min gr) as Hd by lra.
  split.
  - apply Rmult_le_pos; [lra|]. left. by apply Rinv_0_lt_compat.
  - apply (Rmult_le_reg_r (series_max gr - series_min gr)); [done|].
    unfold Rdiv. rewrite Rmult_assoc, Rinv_l by lra. lra.
Qed.

Lemma argmax_from_lt (v : list R) (best : R) (besti i : nat) :
  (besti < i)%nat -> (argmax_from best besti i v < i + length v)%nat.
Proof.
  revert best besti i. induction v as [|x v IH]; intros best besti i Hlt; simpl.
  - lia.
  - destruct (Rlt_dec best x).
    + specialize (IH x i (S i)). lia.
    + specialize (IH best besti (S i)). lia.
Qed.

Lemma np_argmax_ok (v : list R) :
  (0 < length v)%nat -> exists k, np_argmax v = ok k /\ (k < length v)%nat.
Proof.
  destruct v as [|x v]; simpl; [lia|]. intros _.
  eexists. split; [reflexivity|].
  pose proof (argmax_from_lt v x 0 1). lia.
Qed.

(** ** Tables *)

Lemma select_cols_ok {A : Type} (df : Frame A) (cs : list string) :
  (forall c, c ∈ cs -> is_Some (columns df !! c)) ->
  exists m, select_cols df cs = ok m /\
    forall c, m !! c = if decide (c ∈ cs) then columns df !! c else None.
Proof.
  induction cs as [|c cs IH]; intros Hcs; simpl.
  - exists ∅. split; [done|]. intros c. rewrite lookup_empty.
    destruct (decide (c ∈ [])) as [Hc|Hc]; [by apply elem_of_nil in Hc | done].
  - destruct (Hcs c) as [v Hv]; [by left|].
    destruct IH as (m & Hm & Hlook); [intros c' Hc'; apply Hcs; by right|].
    rewrite (getcol_ok _ _ _ Hv). simpl. rewrite Hm. simpl.
    eexists. split; [reflexivity|]. intros c'.
    destruct (decide (c = c')) as [<-|Hne].
    + rewrite lookup_insert_eq. rewrite decide_True by (by left). done.
    + rewrite lookup_insert_ne by done. rewrite Hlook.
      destruct (decide (c' ∈ cs)) as [Hin|Hin].
      * rewrite decide_True by (by right). done.
      * rewrite decide_False; [done|]. intros [->|?]%elem_of_cons; done.
Qed.

Lemma select_ok {A : Type} (df : Frame A) (cs : list string) :
  (forall c, c ∈ cs -> is_Some (columns df !! c)) ->
  exists t, select df cs = ok t /\ index t = index df /\
    forall c, columns t !! c = if decide (c ∈ cs) then columns df !! c else None.
Proof.
  intros Hcs. destruct (select_cols_ok df cs Hcs) as (m & Hm & Hlook).
  unfold select. rewrite Hm. simpl. eexists. split; [reflexivity|]. done.
Qed.

Lemma sample_table_column (df : DataFrame) (c : string) :
  sample_table df -> c ∈ input_columns ->
  exists v, columns df !! c = Some v /\ length v = nrows df.
Proof.
  intros (Hcols & Hwf & _) Hc. destruct (Hcols c Hc) as [v Hv].
  exists v. split; [done|]. by apply (Hwf c).
Qed.

(** ** The end member *)

Lemma end_member_ok (df : DataFrame) (Rvsh Rhsh : option R) (GR Rv Rh : list R) :
  columns df !! "GR" = Some GR ->
  columns df !! "Rv" = Some Rv ->
  columns df !! "Rh" = Some Rh ->
  length Rv = length GR -> length Rh = length GR -> (0 < length GR)%nat ->
  exists k rv rh,
    np_argmax GR = ok k /\ Rv !! k = Some rv /\ Rh !! k = Some rh /\
    end_member df Rvsh Rhsh = ok (default rv Rvsh, default rh Rhsh).
Proof.
  intros HGR HRv HRh Hlv Hlh Hpos.
  destruct (np_argmax_ok GR Hpos) as (k & Hk & Hlt).
  destruct (lookup_lt_is_Some_2 Rv k) as [rv Hrv]; [lia|].
  destruct (lookup_lt_is_Some_2 Rh k) as [rh Hrh]; [lia|].
  exists k, rv, rh. repeat split; try done.
  unfold end_member, end_member_value.
  rewrite (getcol_ok _ _ _ HGR), (getcol_ok _ _ _ HRv), (getcol_ok _ _ _ HRh).
  unfold iloc.
  destruct Rvsh, Rhsh; simpl; rewrite ?Hk; simpl; rewrite ?Hrv, ?Hrh; done.
Qed.

(** ** The nonlinear inversion runs to the end *)

Lemma inversion_ok (minimize : minimizer) (self : ARI) (rvsh rhsh : R)
    (df : DataFrame) (Rv Rh : list R) :
  columns df !! "Rv" = Some Rv ->
  columns df !! "Rh" = Some Rh ->
  length Rv = length Rh -> (0 < length Rv)%nat ->
  exists sol,
    inversion minimize self rvsh rhsh df = ok sol /\
    index sol = index df /\
    columns sol !! "Rv" = Some Rv /\
    columns sol !! "Rh" = Some Rh /\
    columns sol !! "Csh" =
      Some ((fun row => (res_x (solve_row minimize self rvsh rhsh row)).1) <$> zip Rv Rh) /\
    columns sol !! "Rs" =
      Some ((fun row => (res_x (solve_row minimize self rvsh rhsh row)).2) <$> zip Rv Rh).
Proof.
  intros HRv HRh Hlen Hpos. unfold inversion.
  destruct (select_ok df ["Rv"; "Rh"]) as (t & Ht & Hidx & Hlook).
  { intros c Hc.
    apply elem_of_cons in Hc as [->|Hc]; [by rewrite HRv|].
    apply list_elem_of_singleton in Hc as ->. by rewrite HRh. }
  rewrite Ht. simpl.
  assert (columns t !! "Rv" = Some Rv) as HtRv.
  { rewrite Hlook, decide_True; [done | by left]. }
  assert (columns t !! "Rh" = Some Rh) as HtRh.
  { rewrite Hlook, decide_True; [done | right; by left]. }
  rewrite (getcol_ok _ _ _ HtRv). simpl. rewrite (getcol_ok _ _ _ HtRh). simpl.
  assert ((zip Rv Rh).*1 = Rv) as Hfst by (apply fst_zip; lia).
  assert ((zip Rv Rh).*2 = Rh) as Hsnd by (apply snd_zip; lia).
  assert (zip Rv Rh <> []) as Hne.
  { destruct Rv, Rh; simpl in *; try lia; done. }
  destruct (zip Rv Rh) as [|r rows]; [done|].
  cbv beta iota zeta. eexists. split; [reflexivity|].
  unfold setcol. cbn [columns index].
  repeat split;
    repeat first [ rewrite lookup_insert_eq | rewrite lookup_insert_ne by done ];
    rewrite <- ?list_fmap_compose; first [done | congruence].
Qed.

Ltac not_listed :=
  let H := fresh in
  intros H;
  repeat (apply elem_of_cons in H as [H|H]; [discriminate H|]);
  by apply elem_of_nil in H.

Lemma simulate_ok (rvsh rhsh : R) (sol : DataFrame) (Csh Rs : list R) :
  columns sol !! "Csh" = Some Csh ->
  columns sol !! "Rs" = Some Rs ->
  exists sim,
    simulate rvsh rhsh sol = ok sim /\
    is_Some (columns sim !! "Rv_sim") /\ is_Some (columns sim !! "Rh_sim").
Proof.
  intros HCsh HRs. unfold simulate.
  rewrite (getcol_ok _ _ _ HCsh), (getcol_ok _ _ _ HRs). simpl.
  eexists. split; [reflexivity|]. cbn [columns].
  rewrite lookup_insert_eq, lookup_insert_ne, lookup_insert_eq by done. eauto.
Qed.

Lemma error_ok (sol sim : DataFrame) :
  is_Some (columns sol !! "Rv") -> is_Some (columns sol !! "Rh") ->
  is_Some (columns sim !! "Rv_sim") -> is_Some (columns sim !! "Rh_sim") ->
  exists err, error sol sim = ok err.
Proof.
  intros [? H1] [? H2] [? H3] [? H4]. unfold error.
  rewrite (getcol_ok _ _ _ H1), (getcol_ok _ _ _ H2). simpl.
  rewrite (getcol_ok _ _ _ H3), (getcol_ok _ _ _ H4). simpl. eauto.
Qed.

(** On a table of samples the nonlinear inversion raises nothing; the
    lemma names what the call leaves behind and the columns of the table
    returned that the theorems below speak of. *)
Lemma resistivity_inversion_ok (minimize : minimizer) (self : ARI) (df : DataFrame)
    (Rvsh Rhsh : option R) (GR Rv Rh : list R) :
  sample_table df ->
  columns df !! "GR" = Some GR ->
  columns df !! "Rv" = Some Rv ->
  columns df !! "Rh" = Some Rh ->
  exists k rv rh res,
    np_argmax GR = ok k /\ Rv !! k = Some rv /\ Rh !! k = Some rh /\
    end_member df Rvsh Rhsh = ok (default rv Rvsh, default rh Rhsh) /\
    resistivity_inversion minimize self df Rvsh Rhsh =
      ok (set_res_inv self res, setcol df "Csh_lin" (csh_lin GR), res) /\
    index res = index df /\
    columns res !! "GR" = Some GR /\
    columns res !! "Csh_lin" = Some (csh_lin GR) /\
    columns res !! "Rv" = Some Rv /\
    columns res !! "Rh" = Some Rh /\
    columns res !! "Csh" =
      Some ((fun row =>
               (res_x (solve_row minimize self (default rv Rvsh) (default rh Rhsh) row)).1)
            <$> zip Rv Rh) /\
    columns res !! "Rs" =
      Some ((fun row =>
               (res_x (solve_row minimize self (default rv Rvsh) (default rh Rhsh) row)).2)
            <$> zip Rv Rh).
Proof.
  intros Hst HGR HRv HRh.
  pose proof Hst as (Hcols & Hwf & Hpos).
  pose proof (Hwf _ _ HGR) as HlG. pose proof (Hwf _ _ HRv) as HlV.
  pose proof (Hwf _ _ HRh) as HlH.
  destruct (end_member_ok df Rvsh Rhsh GR Rv Rh) as (k & rv & rh & Hk & Hrv & Hrh & Hend);
    try done; try lia.
  exists k, rv, rh.
  set (rvsh := default rv Rvsh) in *. set (rhsh := default rh Rhsh) in *.
  unfold resistivity_inversion. rewrite Hend. simpl.
  rewrite (getcol_ok _ _ _ HGR). simpl.
  set (df1 := setcol df "Csh_lin" (csh_lin GR)).
  destruct (select_ok df1 ["AT10"; "AT30"; "AT60"; "AT90"; "GR"; "Csh_lin"])
    as (val & Hval & Hvidx & Hvlook).
  { intros c Hc. unfold df1, setcol. cbn [columns].
    destruct (decide (c = "Csh_lin")) as [->|Hne].
    - rewrite lookup_insert_eq. eauto.
    - rewrite lookup_insert_ne by done. apply Hcols. unfold input_columns.
      repeat (apply elem_of_cons in Hc as [->|Hc]; [set_solver|]).
      by apply elem_of_nil in Hc. }
  rewrite Hval. simpl.
  destruct (inversion_ok minimize self rvsh rhsh df1 Rv Rh)
    as (sol & Hsol & Hsidx & HsRv & HsRh & HsCsh & HsRs); try lia.
  { unfold df1, setcol. cbn [columns]. by rewrite lookup_insert_ne. }
  { unfold df1, setcol. cbn [columns]. by rewrite lookup_insert_ne. }
  rewrite Hsol. simpl.
  destruct (simulate_ok rvsh rhsh sol _ _ HsCsh HsRs) as (sim & Hsim & Hs1 & Hs2).
  rewrite Hsim. simpl.
  destruct (error_ok sol sim) as (err & Herr); eauto.
  rewrite Herr. simpl.
  eexists. do 4 (split; [done|]). split; [reflexivity|].
  unfold join. cbn [columns index]. split; [done|].
  assert (columns val !! "GR" = Some GR) as HvGR.
  { rewrite Hvlook, decide_True by set_solver.
    unfold df1, setcol. cbn [columns]. by rewrite lookup_insert_ne. }
  assert (columns val !! "Csh_lin" = Some (csh_lin GR)) as HvLin.
  { rewrite Hvlook, decide_True by set_solver.
    unfold df1, setcol. cbn [columns]. by rewrite lookup_insert_eq. }
  assert (forall c, c ∉ ["AT10"; "AT30"; "AT60"; "AT90"; "GR"; "Csh_lin"] ->
            forall v, columns sol !! c = Some v ->
            (columns val ∪ columns sol ∪ columns sim ∪ columns err) !! c = Some v)
    as Hfrom_sol.
  { intros c Hc v Hv. do 2 apply lookup_union_Some_l.
    rewrite lookup_union_r; [done|]. by rewrite Hvlook, decide_False. }
  split; [by do 3 apply lookup_union_Some_l|].
  split; [by do 3 apply lookup_union_Some_l|].
  repeat split; (apply Hfrom_sol; [not_listed | done]).
Qed.

(** ** The sample tables of the examples *)

Lemma two_samples_table (Rv Rh : list R) :
  length Rv = 2%nat -> length Rh = 2%nat -> sample_table (two_samples Rv Rh).
Proof.
  intros HRv HRh. split; [|split].
  - intros c Hc. unfold input_columns in Hc. unfold two_samples. cbn [columns].
    repeat (apply elem_of_cons in Hc as [->|Hc];
            [repeat first [ rewrite lookup_insert_eq | rewrite lookup_insert_ne by done ];
             eauto|]).
    by apply elem_of_nil in Hc.
  - intros c v. unfold two_samples, nrows. cbn [columns index].
    repeat (rewrite lookup_insert; case_decide; [intros [= <-]; done|]).
    by rewrite lookup_empty.
  - unfold two_samples, nrows. simpl. lia.
Qed.

Lemma clip_in_bound (b : bound) (x : R) : feasible b -> in_bound b (clip b x).
Proof.
  destruct b as [[lo|] [hi|]]; unfold feasible, in_bound, clip, Rmin, Rmax; simpl;
    intros Hf; repeat destruct (Rle_dec _ _); split; try done; lra.
Qed.

Lemma minimize_to_honours_bounds (rs : R) (meth : string) :
  honours_bounds (minimize_to rs) meth.
Proof.
  intros f x_0 bounds tol iters H1 H2. simpl. split; by apply clip_in_bound.
Qed.

(** ** The gamma-ray proxy *)

(** C10.  For a table of samples whose GR values are not all equal, the
    table returned by the nonlinear inversion has a column Csh_lin equal to
    (GR - min(GR)) / (max(GR) - min(GR)) sample by sample, every entry of
    which lies in [0, 1].  The column does not depend on the solver, and
    it stands next to the solver's column Csh. *)
Theorem csh_lin_column (minimize : minimizer) (self : ARI) (df : DataFrame)
    (Rvsh Rhsh : option R) (GR : list R) :
  sample_table df ->
  columns df !! "GR" = Some GR ->
  (exists x y, x ∈ GR /\ y ∈ GR /\ x <> y) ->
  exists self' df' res,
    resistivity_inversion minimize self df Rvsh Rhsh = ok (self', df', res) /\
    columns res !! "Csh_lin" =
      Some ((fun g => (g - series_min GR) / (series_max GR - series_min GR)) <$> GR) /\
    Forall (fun x => 0 <= x <= 1)
      ((fun g => (g - series_min GR) / (series_max GR - series_min GR)) <$> GR) /\
    index res = index df /\
    is_Some (columns res !! "Csh").
Proof.
  intros Hst HGR (x & y & Hx & Hy & Hne).
  destruct (sample_table_column df "Rv" Hst) as (Rv & HRv & _); [set_solver|].
  destruct (sample_table_column df "Rh" Hst) as (Rh & HRh & _); [set_solver|].
  destruct (resistivity_inversion_ok minimize self df Rvsh Rhsh GR Rv Rh Hst HGR HRv HRh)
    as (k & rv & rh & res & _ & _ & _ & _ & Hrun & Hidx & _ & Hlin & _ & _ & HCsh & _).
  do 3 eexists. split; [exact Hrun|]. split; [exact Hlin|].
  split; [|split; [done | by rewrite HCsh]].
  apply csh_lin_unit_interval. by apply (series_min_lt_max GR x y).
Qed.

Lemma csh_lin_column_witness :
  exists self' df' res,
    resistivity_inversion (minimize_to 1.5) ARI_init df_clean None None
      = ok (self', df', res) /\
    columns res !! "Csh_lin" =
      Some ((fun g => (g - series_min [50; 80]) / (series_max [50; 80] - series_min [50; 80]))
            <$> [50; 80]) /\
    Forall (fun x => 0 <= x <= 1)
      ((fun g => (g - series_min [50; 80]) / (series_max [50; 80] - series_min [50; 80]))
       <$> [50; 80]) /\
    index res = index df_clean /\
    is_Some (columns res !! "Csh").
Proof.
  apply (csh_lin_column (minimize_to 1.5) ARI_init df_clean None None [50; 80]).
  - apply two_samples_table; reflexivity.
  - reflexivity.
  - exists 50, 80. repeat split; [set_solver | set_solver | lra].
Defined.

(** ** Bounds on the solution *)

Lemma solve_row_csh_bounds (minimize : minimizer) (self : ARI) (rvsh rhsh : R)
    (row : R * R) :
  honours_bounds minimize (method self) ->
  0 <= (res_x (solve_row minimize self rvsh rhsh row)).1 <= 1.
Proof.
  intros Hb. destruct row as [rv rh]. unfold solve_row.
  destruct (Hb (fun variables => objective self rvsh rhsh variables rv rh)
              (x0 self) ((Some 0, Some 1), (None, None))
              (tolerance self) (maxiter self)) as [[H0 H1] _]; simpl; [lra | done |].
  simpl in H0, H1. done.
Qed.

Lemma fmap_const_replicate {A B : Type} (b : B) (l : list A) :
  (fun _ => b) <$> l = replicate (length l) b.
Proof. induction l as [|a l IH]; simpl; [done | by f_equal]. Qed.

(** C7.  For a table of samples and a solver method that honours box
    bounds, every Csh of the table returned lies in [0, 1].  Rs is not
    constrained: whatever number is chosen, a solver that honours the
    bounds passed can return it as the Rs of every sample. *)
Theorem csh_in_unit_interval (minimize : minimizer) (self : ARI) (df : DataFrame)
    (Rvsh Rhsh : option R) :
  honours_bounds minimize (method self) ->
  sample_table df ->
  (exists self' df' res Csh,
      resistivity_inversion minimize self df Rvsh Rhsh = ok (self', df', res) /\
      columns res !! "Csh" = Some Csh /\
      length Csh = nrows df /\
      Forall (fun c => 0 <= c <= 1) Csh) /\
  (forall rs : R, exists minimize',
      honours_bounds minimize' (method self) /\
      exists self' df' res,
        resistivity_inversion minimize' self df Rvsh Rhsh = ok (self', df', res) /\
        columns res !! "Rs" = Some (replicate (nrows df) rs)).
Proof.
  intros Hb Hst.
  destruct (sample_table_column df "GR" Hst) as (GR & HGR & _); [set_solver|].
  destruct (sample_table_column df "Rv" Hst) as (Rv & HRv & HlV); [set_solver|].
  destruct (sample_table_column df "Rh" Hst) as (Rh & HRh & HlH); [set_solver|].
  split.
  - destruct (resistivity_inversion_ok minimize self df Rvsh Rhsh GR Rv Rh Hst HGR HRv HRh)
      as (k & rv & rh & res & _ & _ & _ & _ & Hrun & _ & _ & _ & _ & _ & HCsh & _).
    do 4 eexists. split; [exact Hrun|]. split; [exact HCsh|]. split.
    + rewrite length_fmap, length_zip. lia.
    + rewrite Forall_fmap, Forall_forall. intros row _. simpl.
      by apply solve_row_csh_bounds.
  - intros rs. exists (minimize_to rs). split; [apply minimize_to_honours_bounds|].
    destruct (resistivity_inversion_ok (minimize_to rs) self df Rvsh Rhsh GR Rv Rh
                Hst HGR HRv HRh)
      as (k & rv & rh & res & _ & _ & _ & _ & Hrun & _ & _ & _ & _ & _ & _ & HRs).
    do 3 eexists. split; [exact Hrun|]. rewrite HRs. f_equal.
    rewrite <- HlV. replace (length Rv) with (length (zip Rv Rh))
      by (rewrite length_zip; lia).
    rewrite <- (fmap_const_replicate rs (zip Rv Rh)). apply list_fmap_ext.
    intros i [rv' rh'] _. reflexivity.
Qed.

Lemma csh_in_unit_interval_witness :
  (exists self' df' res Csh,
      resistivity_inversion (minimize_to 1.5) ARI_init df_clean None None
        = ok (self', df', res) /\
      columns res !! "Csh" = Some Csh /\
      length Csh = nrows df_clean /\
      Forall (fun c => 0 <= c <= 1) Csh) /\
  (forall rs : R, exists minimize',
      honours_bounds minimize' (method ARI_init) /\
      exists self' df' res,
        resistivity_inversion minimize' ARI_init df_clean None None
          = ok (self', df', res) /\
        columns res !! "Rs" = Some (replicate (nrows df_clean) rs)).
Proof.
  apply (csh_in_unit_interval (minimize_to 1.5) ARI_init df_clean None None).
  - apply minimize_to_honours_bounds.
  - apply two_samples_table; reflexivity.
Defined.

(** ** Samples that are not positive *)

Lemma argmax_two_samples : np_argmax [50; 80] = ok 1%nat.
Proof.
  unfold np_argmax, argmax_from. destruct (Rlt_dec 50 80); [done | lra].
Qed.



(** The first call that raises ends the loop with its exception. *)
Lemma solve_rows_raise (minimize : minimizer_checked) (self : ARI) (rvsh rhsh : R)
    (rows : list (R * R)) (i : nat) (row : R * R) (solved : list OptimizeResult)
    (e : exn) :
  solve_rows minimize self rvsh rhsh (take i rows) = ok solved ->
  rows !! i = Some row ->
  solve_row_checked minimize self rvsh rhsh row = raise e ->
  solve_rows minimize self rvsh rhsh rows = raise e.
Proof.
  revert i solved. induction rows as [|r rows IH]; intros [|i] solved; simpl; try done.
  - intros _ [= ->] Hr. by rewrite Hr.
  - destruct (solve_row_checked minimize self rvsh rhsh r) as [e'|s]; simpl;
      [discriminate|].
    destruct (solve_rows minimize self rvsh rhsh (take i rows)) as [e'|ss] eqn:Hss;
      simpl; [discriminate|].
    intros _ Hi Hr. by rewrite (IH i ss Hss Hi Hr).
Qed.

(** For a sample with a zero Rh, or a zero Rv under the weighting, the
    objective raises wherever it is evaluated. *)
Lemma objective_checked_zero (self : ARI) (rvsh rhsh rv rh : R) (x : R * R) :
  rh = 0 \/ (Wd_matrix self = true /\ rv = 0) ->
  objective_checked self rvsh rhsh x rv rh
    = raise (ValueError "array must not contain infs or NaNs").
Proof.
  intros H. destruct x as [csh rs]. unfold objective_checked, residual_is_finite.
  destruct H as [->|[-> ->]]; rewrite (is_zero_true 0 eq_refl);
    destruct (is_zero rhsh), (is_zero rs); try destruct (is_zero rh);
    try destruct (Wd_matrix self); try destruct (is_zero rv); reflexivity.
Qed.

Lemma solve_row_checked_zero (minimize : minimizer_checked) (self : ARI)
    (rvsh rhsh rv rh : R) :
  evaluates_objective minimize (method self) ->
  rh = 0 \/ (Wd_matrix self = true /\ rv = 0) ->
  solve_row_checked minimize self rvsh rhsh (rv, rh)
    = raise (ValueError "array must not contain infs or NaNs").
Proof.
  intros He Hz. unfold solve_row_checked. apply He; simpl; [lra | done |].
  intros x. by apply objective_checked_zero.
Qed.

Lemma inversion_checked_ok (minimize : minimizer_checked) (self : ARI) (rvsh rhsh : R)
    (df : DataFrame) (Rv Rh : list R) (solutions : list OptimizeResult) :
  columns df !! "Rv" = Some Rv ->
  columns df !! "Rh" = Some Rh ->
  length Rv = length Rh -> (0 < length Rv)%nat ->
  solve_rows minimize self rvsh rhsh (zip Rv Rh) = ok solutions ->
  exists sol,
    inversion_checked minimize self rvsh rhsh df = ok sol /\
    index sol = index df /\
    columns sol !! "Rv" = Some Rv /\
    columns sol !! "Rh" = Some Rh /\
    columns sol !! "Csh" = Some ((fun s => (res_x s).1) <$> solutions) /\
    columns sol !! "Rs" = Some ((fun s => (res_x s).2) <$> solutions).
Proof.
  intros HRv HRh Hlen Hpos Hsolve. unfold inversion_checked.
  destruct (select_ok df ["Rv"; "Rh"]) as (t & Ht & Hidx & Hlook).
  { intros c Hc.
    apply elem_of_cons in Hc as [->|Hc]; [by rewrite HRv|].
    apply list_elem_of_singleton in Hc as ->. by rewrite HRh. }
  rewrite Ht. simpl.
  assert (columns t !! "Rv" = Some Rv) as HtRv.
  { rewrite Hlook, decide_True; [done | by left]. }
  assert (columns t !! "Rh" = Some Rh) as HtRh.
  { rewrite Hlook, decide_True; [done | right; by left]. }
  rewrite (getcol_ok _ _ _ HtRv). simpl. rewrite (getcol_ok _ _ _ HtRh). simpl.
  rewrite Hsolve. simpl.
  assert ((zip Rv Rh).*1 = Rv) as Hfst by (apply fst_zip; lia).
  assert ((zip Rv Rh).*2 = Rh) as Hsnd by (apply snd_zip; lia).
  assert (zip Rv Rh <> []) as Hne.
  { destruct Rv, Rh; simpl in *; try lia; done. }
  destruct (zip Rv Rh) as [|r rows]; [done|].
  cbv beta iota zeta. eexists. split; [reflexivity|].
  unfold setcol. cbn [columns index].
  repeat split;
    repeat first [ rewrite lookup_insert_eq | rewrite lookup_insert_ne by done ];
    first [done | congruence].
Qed.

Lemma inversion_checked_raise (minimize : minimizer_checked) (self : ARI)
    (rvsh rhsh : R) (df : DataFrame) (Rv Rh : list R) (e : exn) :
  columns df !! "Rv" = Some Rv ->
  columns df !! "Rh" = Some Rh ->
  solve_rows minimize self rvsh rhsh (zip Rv Rh) = raise e ->
  inversion_checked minimize self rvsh rhsh df = raise e.
Proof.
  intros HRv HRh Hsolve. unfold inversion_checked.
  destruct (select_ok df ["Rv"; "Rh"]) as (t & Ht & Hidx & Hlook).
  { intros c Hc.
    apply elem_of_cons in Hc as [->|Hc]; [by rewrite HRv|].
    apply list_elem_of_singleton in Hc as ->. by rewrite HRh. }
  rewrite Ht. simpl.
  assert (columns t !! "Rv" = Some Rv) as HtRv.
  { rewrite Hlook, decide_True; [done | by left]. }
  assert (columns t !! "Rh" = Some Rh) as HtRh.
  { rewrite Hlook, decide_True; [done | right; by left]. }
  rewrite (getcol_ok _ _ _ HtRv). simpl. rewrite (getcol_ok _ _ _ HtRh). simpl.
  by rewrite Hsolve.
Qed.

(** On a table of samples the outcome of the run is the outcome of the
    loop over the samples: nothing before the loop can raise, and what
    follows it cannot either. *)
Lemma resistivity_inversion_checked_run (minimize : minimizer_checked) (self : ARI)
    (df : DataFrame) (Rvsh Rhsh : option R) (GR Rv Rh : list R) :
  sample_table df ->
  columns df !! "GR" = Some GR ->
  columns df !! "Rv" = Some Rv ->
  columns df !! "Rh" = Some Rh ->
  exists k rv rh,
    np_argmax GR = ok k /\ Rv !! k = Some rv /\ Rh !! k = Some rh /\
    end_member df Rvsh Rhsh = ok (default rv Rvsh, default rh Rhsh) /\
    (forall solutions,
       solve_rows minimize self (default rv Rvsh) (default rh Rhsh) (zip Rv Rh)
         = ok solutions ->
       exists res,
         resistivity_inversion_checked minimize self df Rvsh Rhsh =
           ok (set_res_inv self res, setcol df "Csh_lin" (csh_lin GR), res) /\
         index res = index df /\
         columns res !! "Rv" = Some Rv /\
         columns res !! "Rh" = Some Rh /\
         columns res !! "Csh" = Some ((fun s => (res_x s).1) <$> solutions) /\
         columns res !! "Rs" = Some ((fun s => (res_x s).2) <$> solutions)) /\
    (forall e,
       solve_rows minimize self (default rv Rvsh) (default rh Rhsh) (zip Rv Rh)
         = raise e ->
       resistivity_inversion_checked minimize self df Rvsh Rhsh = raise e).
Proof.
  intros Hst HGR HRv HRh.
  pose proof Hst as (Hcols & Hwf & Hpos).
  pose proof (Hwf _ _ HGR) as HlG. pose proof (Hwf _ _ HRv) as HlV.
  pose proof (Hwf _ _ HRh) as HlH.
  destruct (end_member_ok df Rvsh Rhsh GR Rv Rh) as (k & rv & rh & Hk & Hrv & Hrh & Hend);
    try done; try lia.
  exists k, rv, rh. do 4 (split; [done|]).
  set (rvsh := default rv Rvsh) in *. set (rhsh := default rh Rhsh) in *.
  set (df1 := setcol df "Csh_lin" (csh_lin GR)).
  destruct (select_ok df1 ["AT10"; "AT30"; "AT60"; "AT90"; "GR"; "Csh_lin"])
    as (val & Hval & Hvidx & Hvlook).
  { intros c Hc. unfold df1, setcol. cbn [columns].
    destruct (decide (c = "Csh_lin")) as [->|Hne].
    - rewrite lookup_insert_eq. eauto.
    - rewrite lookup_insert_ne by done. apply Hcols. unfold input_columns.
      repeat (apply elem_of_cons in Hc as [->|Hc]; [set_solver|]).
      by apply elem_of_nil in Hc. }
  assert (columns df1 !! "Rv" = Some Rv) as H1Rv.
  { unfold df1, setcol. cbn [columns]. by rewrite lookup_insert_ne. }
  assert (columns df1 !! "Rh" = Some Rh) as H1Rh.
  { unfold df1, setcol. cbn [columns]. by rewrite lookup_insert_ne. }
  split.
  - intros solutions Hsolve.
    unfold resistivity_inversion_checked. rewrite Hend. simpl.
    rewrite (getcol_ok _ _ _ HGR). simpl. fold df1. rewrite Hval. simpl.
    destruct (inversion_checked_ok minimize self rvsh rhsh df1 Rv Rh solutions)
      as (sol & Hsol & Hsidx & HsRv & HsRh & HsCsh & HsRs); try done; try lia.
    rewrite Hsol. simpl.
    destruct (simulate_ok rvsh rhsh sol _ _ HsCsh HsRs) as (sim & Hsim & Hs1 & Hs2).
    rewrite Hsim. simpl.
    destruct (error_ok sol sim) as (err & Herr); eauto.
    rewrite Herr. simpl.
    eexists. split; [reflexivity|].
    unfold join. cbn [columns index]. split; [done|].
    assert (forall c, c ∉ ["AT10"; "AT30"; "AT60"; "AT90"; "GR"; "Csh_lin"] ->
              forall v, columns sol !! c = Some v ->
              (columns val ∪ columns sol ∪ columns sim ∪ columns err) !! c = Some v)
      as Hfrom_sol.
    { intros c Hc v Hv. do 2 apply lookup_union_Some_l.
      rewrite lookup_union_r; [done|]. by rewrite Hvlook, decide_False. }
    repeat split; (apply Hfrom_sol; [not_listed | done]).
  - intros e Hsolve.
    unfold resistivity_inversion_checked. rewrite Hend. simpl.
    rewrite (getcol_ok _ _ _ HGR). simpl. fold df1. rewrite Hval. simpl.
    by rewrite (inversion_checked_raise minimize self rvsh rhsh df1 Rv Rh e).
Qed.



Lemma minimize_checked_to_evaluates (rs : R) (meth : string) :
  evaluates_objective (minimize_checked_to rs) meth.
Proof.
  intros f x_0 bounds tol iters e _ _ Hf. unfold minimize_checked_to.
  cbv zeta. by rewrite Hf.
Qed.

Lemma objective_checked_finite (self : ARI) (rvsh rhsh rv rh : R) (x : R * R) :
  rhsh <> 0 -> x.2 <> 0 -> rh <> 0 -> rv <> 0 ->
  objective_checked self rvsh rhsh x rv rh = ok (objective self rvsh rhsh x rv rh).
Proof.
  intros H1 H2 H3 H4. destruct x as [csh rs]. simpl in H2.
  unfold objective_checked, residual_is_finite.
  rewrite !is_zero_false by done. by destruct (Wd_matrix self).
Qed.


(** A table whose second sample has Rh = 0, with the end member (4, 1)
    supplied: the first sample is solved, and the call for the second one
    raises the ValueError of [linalg.norm]. *)
Example zero_sample_raises_in_its_solve :
  (exists s0, solve_row_checked (minimize_checked_to 1.5) ARI_init 4 1 (3, 2) = ok s0) /\
  resistivity_inversion_checked (minimize_checked_to 1.5) ARI_init df_zero
    (Some 4) (Some 1) = raise (ValueError "array must not contain infs or NaNs").
Proof.
  assert (exists s0,
            solve_row_checked (minimize_checked_to 1.5) ARI_init 4 1 (3, 2) = ok s0)
    as [s0 Hs0].
  { unfold solve_row_checked, minimize_checked_to. cbv zeta.
    rewrite !objective_checked_finite;
      try (unfold clip, Rmin, Rmax; simpl; repeat destruct (Rle_dec _ _); lra).
    simpl. eauto. }
  split; [eauto|].
  destruct (resistivity_inversion_checked_run (minimize_checked_to 1.5) ARI_init df_zero
              (Some 4) (Some 1) [50; 80] [3; 4] [2; 0])
    as (k & rv & rh & _ & _ & _ & _ & _ & Hraise);
    [apply two_samples_table; reflexivity | reflexivity..|].
  apply Hraise.
  change (default rv (Some 4)) with 4. change (default rh (Some 1)) with 1.
  apply (solve_rows_raise _ _ _ _ _ 1%nat (4, 0) [s0]).
  - change (take 1 (zip [3; 4] [2; 0])) with [(3, 2)].
    unfold solve_rows. by rewrite Hs0.
  - reflexivity.
  - apply solve_row_checked_zero; [apply minimize_checked_to_evaluates | by left].
Qed.

(** ** What a call leaves behind *)

(** C9 (as the code has it).  A call of the nonlinear inversion on a table
    of samples writes the column Csh_lin into the table it was passed,
    leaving its index and every other column as they were, and stores the
    table it returns in the attribute res_inv of the inverter, leaving
    every other attribute as it was. *)
Theorem inversion_frame (minimize : minimizer) (self : ARI) (df : DataFrame)
    (Rvsh Rhsh : option R) (GR : list R) :
  sample_table df ->
  columns df !! "GR" = Some GR ->
  exists self' df' res,
    resistivity_inversion minimize self df Rvsh Rhsh = ok (self', df', res) /\
    columns df' !! "Csh_lin" = Some (csh_lin GR) /\
    (forall c, c <> "Csh_lin" -> columns df' !! c = columns df !! c) /\
    index df' = index df /\
    res_inv self' = Some res /\
    self' = set_res_inv self res.
Proof.
  intros Hst HGR.
  destruct (sample_table_column df "Rv" Hst) as (Rv & HRv & _); [set_solver|].
  destruct (sample_table_column df "Rh" Hst) as (Rh & HRh & _); [set_solver|].
  destruct (resistivity_inversion_ok minimize self df Rvsh Rhsh GR Rv Rh Hst HGR HRv HRh)
    as (k & rv & rh & res & _ & _ & _ & _ & Hrun & _).
  do 3 eexists. split; [exact Hrun|]. unfold setcol. cbn [columns index].
  split; [by rewrite lookup_insert_eq|].
  split; [intros c Hc; by rewrite lookup_insert_ne|]. done.
Qed.

Lemma inversion_frame_witness :
  exists self' df' res,
    resistivity_inversion (minimize_to 1.5) ARI_init df_clean None None
      = ok (self', df', res) /\
    columns df' !! "Csh_lin" = Some (csh_lin [50; 80]) /\
    (forall c, c <> "Csh_lin" -> columns df' !! c = columns df_clean !! c) /\
    index df' = index df_clean /\
    res_inv self' = Some res /\
    self' = set_res_inv ARI_init res.
Proof.
  apply (inversion_frame (minimize_to 1.5) ARI_init df_clean None None [50; 80]).
  - apply two_samples_table; reflexivity.
  - reflexivity.
Defined.

(** The table passed in has no column Csh_lin and the new inverter no
    attribute res_inv; after one call both are there. *)
Lemma inversion_writes_table_and_inverter :
  columns df_clean !! "Csh_lin" = None /\
  res_inv ARI_init = None /\
  forall minimize : minimizer, exists self' df' res,
    resistivity_inversion minimize ARI_init df_clean None None = ok (self', df', res) /\
    columns df' !! "Csh_lin" = Some (csh_lin [50; 80]) /\
    df' <> df_clean /\
    res_inv self' = Some res.
Proof.
  split; [reflexivity|]. split; [reflexivity|]. intros minimize.
  destruct (resistivity_inversion_ok minimize ARI_init df_clean None None
              [50; 80] [3; 4] [2; 1])
    as (k & rv & rh & res & _ & _ & _ & _ & Hrun & _);
    [apply two_samples_table; reflexivity | reflexivity..|].
  do 3 eexists. split; [exact Hrun|].
  split; [unfold setcol; cbn [columns]; by rewrite lookup_insert_eq|].
  split; [|done].
  intros Heq. apply (f_equal (fun t => columns t !! "Csh_lin")) in Heq.
  unfold setcol in Heq. cbn [columns] in Heq. rewrite lookup_insert_eq in Heq.
  discriminate Heq.
Qed.

(** ** The table of the quadratic inversion *)

Lemma column_of_lookup (values : list cell) (i : nat) (c : cell) :
  values !! i = Some c ->
  column_of values !! i = Some (if existsb is_complex values then as_complex c else c).
Proof.
  intros H. unfold column_of.
  destruct (existsb is_complex values); [by rewrite list_lookup_fmap, H | done].
Qed.

Lemma column_of_length (values : list cell) : length (column_of values) = length values.
Proof.
  unfold column_of. destruct (existsb is_complex values); [by rewrite length_fmap | done].
Qed.

Lemma existsb_is_complex (values : list cell) :
  existsb is_complex values = true <->
  exists j c, values !! j = Some c /\ is_complex c = true.
Proof.
  induction values as [|v vs IH]; simpl.
  - split; [done|]. intros (j & c & H & _). by rewrite lookup_nil in H.
  - rewrite orb_true_iff, IH. split.
    + intros [Hv|(j & c & Hj & Hc)]; [by exists 0%nat, v | by exists (S j), c].
    + intros ([|j] & c & Hj & Hc); simpl in Hj; [left; by injection Hj as -> | right; eauto].
Qed.

(** A column has one dtype. *)
Lemma column_of_one_dtype (values : list cell) :
  Forall (fun c => is_complex c = false) (column_of values) \/
  Forall (fun c => is_complex c = true) (column_of values).
Proof.
  unfold column_of. destruct (existsb is_complex values) eqn:He.
  - right. rewrite Forall_fmap. apply Forall_forall. intros c _. by destruct c.
  - left. apply Forall_forall. intros c Hc.
    destruct (is_complex c) eqn:Hcc; [|done].
    apply list_elem_of_lookup in Hc as [j Hj].
    assert (existsb is_complex values = true) as He' by (apply existsb_is_complex; eauto).
    congruence.
Qed.

Lemma as_complex_idemp (c : cell) : as_complex (as_complex c) = as_complex c.
Proof. by destruct c. Qed.

(** On a table of samples [quadratic_inversion] raises nothing; the lemma
    names the end member, the table returned and its two columns. *)
Lemma quadratic_inversion_ok eigvals (self : ARI) (df : DataFrame)
    (Rvsh Rhsh : option R) (Rv Rh : list R) :
  sample_table df ->
  columns df !! "Rv" = Some Rv ->
  columns df !! "Rh" = Some Rh ->
  exists rvsh rhsh t,
    end_member df Rvsh Rhsh = ok (rvsh, rhsh) /\
    quadratic_inversion eigvals self df Rvsh Rhsh = ok (set_quad_inv self t, t) /\
    index t = index df /\
    columns t !! "Csh_q1" =
      Some (column_of ((fun row => (quadratic_row eigvals rvsh rhsh row).1) <$> zip Rv Rh)) /\
    columns t !! "Csh_q2" =
      Some (column_of ((fun row => (quadratic_row eigvals rvsh rhsh row).2) <$> zip Rv Rh)).
Proof.
  intros Hst HRv HRh.
  destruct (sample_table_column df "GR" Hst) as (GR & HGR & HlG); [set_solver|].
  pose proof Hst as (_ & Hwf & Hpos).
  pose proof (Hwf _ _ HRv) as HlV. pose proof (Hwf _ _ HRh) as HlH.
  destruct (end_member_ok df Rvsh Rhsh GR Rv Rh HGR HRv HRh)
    as (k & rv0 & rh0 & _ & _ & _ & Hend); try lia.
  do 2 eexists. unfold quadratic_inversion. rewrite Hend. simpl.
  destruct (nrows df) as [|n] eqn:Hn; [lia|].
  rewrite (getcol_ok _ _ _ HRv), (getcol_ok _ _ _ HRh). simpl.
  assert (zip Rv Rh <> []) as Hne.
  { destruct Rv, Rh; simpl in *; try lia; done. }
  destruct (zip Rv Rh) as [|r rows] eqn:Hz; [done|].
  remember (quadratic_row eigvals (default rv0 Rvsh) (default rh0 Rhsh) <$> r :: rows)
    as quad eqn:Hq.
  destruct quad as [|q quad]; [discriminate Hq|].
  cbv beta iota zeta.
  eexists. split; [reflexivity|]. split; [reflexivity|]. split; [done|].
  cbn [columns].
  rewrite lookup_insert_eq, lookup_insert_ne, lookup_insert_eq by done.
  rewrite Hq, <- !list_fmap_compose. done.
Qed.

Lemma cells_length (a : ndarray) : length (cells a) = array_len a.
Proof. destruct a; simpl; by rewrite length_fmap. Qed.

(** An entry of an array is a float or a complex number. *)
Lemma cells_number (a : ndarray) (k : nat) (z : cell) :
  cells a !! k = Some z ->
  (exists x, z = Float x) \/ (exists re im, z = Complex re im).
Proof.
  destruct a as [v|v]; simpl; rewrite list_lookup_fmap;
    destruct (v !! k); simpl; intros [= <-]; eauto.
Qed.

(** Field k of the dictionary of a row is entry k of the array of roots,
    and NaN when the array has no entry k. *)
Lemma quadratic_row_lookup eigvals (Rvsh Rhsh Rv Rh : R) :
  eigvals_spec eigvals ->
  let qsol := cells (np_roots eigvals
                       [Rh * Rvsh - Rh * Rhsh;
                        Rv ^ 2 + Rvsh * Rhsh - 2 * Rh * Rhsh;
                        Rv * Rhsh - Rh * Rhsh]) in
  (quadratic_row eigvals Rvsh Rhsh (Rv, Rh)).1 = default NaN (qsol !! 0%nat) /\
  (quadratic_row eigvals Rvsh Rhsh (Rv, Rh)).2 = default NaN (qsol !! 1%nat).
Proof.
  intros Hspec qsol.
  pose proof (np_roots_at_most_two eigvals (Rh * Rvsh - Rh * Rhsh)
                (Rv ^ 2 + Rvsh * Rhsh - 2 * Rh * Rhsh) (Rv * Rhsh - Rh * Rhsh) Hspec)
    as Hlen.
  rewrite <- cells_length in Hlen. fold qsol in Hlen.
  unfold quadratic_row. fold qsol.
  destruct qsol as [|z0 [|z1 [|z2 v]]]; simpl in *; try done; lia.
Qed.

(** What a column holds for a list of roots, some of them missing. *)
Lemma column_of_roots (roots : list (option cell)) (i : nat) (r : option cell) :
  (forall j z, roots !! j = Some (Some z) ->
     (exists x, z = Float x) \/ (exists re im, z = Complex re im)) ->
  roots !! i = Some r ->
  let complex_column := exists j re im, roots !! j = Some (Some (Complex re im)) in
  exists stored,
    column_of (default NaN <$> roots) !! i = Some stored /\
    match r with
    | Some (Complex re im) => stored = Complex re im
    | Some (Float x) =>
        (~ complex_column /\ stored = Float x) \/
        (complex_column /\ stored = Complex x 0)
    | Some _ => False
    | None =>
        (~ complex_column /\ stored = NaN) \/
        (complex_column /\ stored = ComplexNaN)
    end.
Proof.
  intros Hnum Hi complex_column.
  assert (existsb is_complex (default NaN <$> roots) = true <-> complex_column) as Hcc.
  { rewrite existsb_is_complex. split.
    - intros (j & c & Hj & Hc). rewrite list_lookup_fmap in Hj.
      destruct (roots !! j) as [[z|]|] eqn:Hr; simpl in Hj;
        [injection Hj as <- | by injection Hj as <- | done].
      destruct (Hnum j z Hr) as [[x ->]|(re & im & ->)]; [done|].
      by exists j, re, im.
    - intros (j & re & im & Hj). exists j, (Complex re im).
      by rewrite list_lookup_fmap, Hj. }
  eexists. split.
  { apply column_of_lookup. by rewrite list_lookup_fmap, Hi. }
  destruct (existsb is_complex (default NaN <$> roots)) eqn:He.
  - assert complex_column as Hc by (by apply Hcc).
    destruct r as [z|]; simpl; [|by right].
    destruct (Hnum i z Hi) as [[x ->]|(re & im & ->)]; simpl; [by right | done].
  - assert (~ complex_column) as Hc by (intros Hc; apply Hcc in Hc; done).
    destruct r as [z|]; simpl; [|by left].
    destruct (Hnum i z Hi) as [[x ->]|(re & im & ->)]; simpl; [by left|].
    destruct Hc. by exists i, re, im.
Qed.

(** C8 (as the code has it).  On a table of samples the quadratic inversion
    returns a table whose column Csh_q1 holds, for every sample, the first
    root the root finder returned for it and whose column Csh_q2 holds the
    second.  A complex root is stored as the complex value it is.  A real
    root is stored as a float, or as the complex x+0j when a root of
    another sample in the same column is complex, the column being of one
    dtype.  NaN (nan+0j in a complex column) is stored only where the root
    finder returned no such root. *)
Theorem quadratic_table_fields eigvals (self : ARI) (df : DataFrame)
    (Rvsh Rhsh : option R) (Rv Rh : list R) :
  eigvals_spec eigvals ->
  sample_table df ->
  columns df !! "Rv" = Some Rv ->
  columns df !! "Rh" = Some Rh ->
  exists rvsh rhsh t,
    end_member df Rvsh Rhsh = ok (rvsh, rhsh) /\
    quadratic_inversion eigvals self df Rvsh Rhsh = ok (set_quad_inv self t, t) /\
    forall k name,
      (k = 0%nat /\ name = "Csh_q1") \/ (k = 1%nat /\ name = "Csh_q2") ->
      let root := fun rv rh =>
        cells (np_roots eigvals
                 [rh * rvsh - rh * rhsh;
                  rv ^ 2 + rvsh * rhsh - 2 * rh * rhsh;
                  rv * rhsh - rh * rhsh]) !! k in
      let complex_column :=
        exists j rv rh re im,
          Rv !! j = Some rv /\ Rh !! j = Some rh /\ root rv rh = Some (Complex re im) in
      forall i rv rh,
        Rv !! i = Some rv -> Rh !! i = Some rh ->
        exists stored,
          at_row t name i = Some stored /\
          match root rv rh with
          | Some (Complex re im) => stored = Complex re im
          | Some (Float x) =>
              (~ complex_column /\ stored = Float x) \/
              (complex_column /\ stored = Complex x 0)
          | Some _ => False
          | None =>
              (~ complex_column /\ stored = NaN) \/
              (complex_column /\ stored = ComplexNaN)
          end.
Proof.
  intros Hspec Hst HRv HRh.
  destruct (quadratic_inversion_ok eigvals self df Rvsh Rhsh Rv Rh Hst HRv HRh)
    as (rvsh & rhsh & t & Hend & Hrun & _ & Hq1 & Hq2).
  exists rvsh, rhsh, t. do 2 (split; [done|]).
  intros k name Hk root complex_column i rv rh Hv Hh.
  set (roots := (fun row : R * R => root row.1 row.2) <$> zip Rv Rh).
  assert (columns t !! name = Some (column_of (default NaN <$> roots))) as Hcol.
  { destruct Hk as [[-> ->]|[-> ->]]; [rewrite Hq1 | rewrite Hq2];
      do 2 f_equal; unfold roots; rewrite <- list_fmap_compose;
      apply list_fmap_ext; intros j [rv' rh'] _; simpl;
      destruct (quadratic_row_lookup eigvals rvsh rhsh rv' rh' Hspec) as [H1 H2];
      done. }
  assert (forall j r, roots !! j = Some r <->
            exists rv' rh', Rv !! j = Some rv' /\ Rh !! j = Some rh' /\ r = root rv' rh')
    as Hroots.
  { intros j r. unfold roots. rewrite list_lookup_fmap, lookup_zip_with.
    destruct (Rv !! j) as [rv'|]; simpl; [destruct (Rh !! j) as [rh'|]; simpl|].
    - split; [intros [= <-]; by exists rv', rh' | by intros (? & ? & [= <-] & [= <-] & ->)].
    - split; [done | by intros (? & ? & _ & ? & _)].
    - split; [done | by intros (? & ? & ? & _)]. }
  destruct (column_of_roots roots i (root rv rh)) as (stored & Hstored & Hcase).
  { intros j z Hj. apply Hroots in Hj as (rv' & rh' & _ & _ & Hz).
    symmetry in Hz. by apply cells_number in Hz. }
  { apply Hroots. by exists rv, rh. }
  exists stored. split; [unfold at_row; by rewrite Hcol|].
  assert ((exists j re im, roots !! j = Some (Some (Complex re im))) <-> complex_column)
    as Hcc.
  { split.
    - intros (j & re & im & Hj). apply Hroots in Hj as (rv' & rh' & ? & ? & Hz).
      by exists j, rv', rh', re, im.
    - intros (j & rv' & rh' & re & im & ? & ? & Hz). exists j, re, im.
      apply Hroots. by exists rv', rh'. }
  destruct (root rv rh) as [[x|re im| |]|]; try done.
  - destruct Hcase as [[Hn ->]|[Hy ->]]; [left | right]; split; try done;
      [by rewrite <- Hcc | by apply Hcc].
  - destruct Hcase as [[Hn ->]|[Hy ->]]; [left | right]; split; try done;
      [by rewrite <- Hcc | by apply Hcc].
Qed.

(** Two samples for the end member (1, 2): the roots of the first are
    complex, those of the second are real. *)
Lemma quadratic_table_fields_witness :
  exists rvsh rhsh t,
    end_member (two_samples [3; 2] [4; 2]) (Some 1) (Some 2) = ok (rvsh, rhsh) /\
    quadratic_inversion eigvals_closed_form ARI_init (two_samples [3; 2] [4; 2])
      (Some 1) (Some 2) = ok (set_quad_inv ARI_init t, t) /\
    forall k name,
      (k = 0%nat /\ name = "Csh_q1") \/ (k = 1%nat /\ name = "Csh_q2") ->
      let root := fun rv rh =>
        cells (np_roots eigvals_closed_form
                 [rh * rvsh - rh * rhsh;
                  rv ^ 2 + rvsh * rhsh - 2 * rh * rhsh;
                  rv * rhsh - rh * rhsh]) !! k in
      let complex_column :=
        exists j rv rh re im,
          [3; 2] !! j = Some rv /\ [4; 2] !! j = Some rh /\
          root rv rh = Some (Complex re im) in
      forall i rv rh,
        [3; 2] !! i = Some rv -> [4; 2] !! i = Some rh ->
        exists stored,
          at_row t name i = Some stored /\
          match root rv rh with
          | Some (Complex re im) => stored = Complex re im
          | Some (Float x) =>
              (~ complex_column /\ stored = Float x) \/
              (complex_column /\ stored = Complex x 0)
          | Some _ => False
          | None =>
              (~ complex_column /\ stored = NaN) \/
              (complex_column /\ stored = ComplexNaN)
          end.
Proof.
  apply (quadratic_table_fields eigvals_closed_form ARI_init (two_samples [3; 2] [4; 2])
           (Some 1) (Some 2) [3; 2] [4; 2]).
  - apply eigvals_closed_form_spec.
  - apply two_samples_table; reflexivity.
  - reflexivity.
  - reflexivity.
Defined.

(** A complex root is stored as a complex value.  For Rvsh = 1, Rhsh = 2,
    Rv = 3 and Rh = 4 the quadratic is -4*x^2 - 5*x - 2, of discriminant
    -7: whatever eigenvalue routine meets the contract, both fields are
    complex. *)
Lemma quadratic_row_stores_complex :
  eigvals_spec eigvals_closed_form /\
  forall eigvals, eigvals_spec eigvals ->
    exists re1 im1 re2 im2,
      quadratic_row eigvals 1 2 (3, 4) = (Complex re1 im1, Complex re2 im2).
Proof.
  split; [apply eigvals_closed_form_spec|].
  intros eigvals Hspec. by apply quadratic_row_complex_sample.
Qed.

(** ** Uncertainty quantification *)

Lemma random_normal_length {RNG : Type} (gauss : RNG -> R * RNG) (n : nat) (g : RNG) :
  length (random_normal gauss n g).1 = n.
Proof.
  revert g. induction n as [|n IH]; intros g; simpl; [done|].
  destruct (gauss g) as [x g1]. specialize (IH g1).
  destruct (random_normal gauss n g1) as [xs g2]. simpl in *. lia.
Qed.

Lemma draws_length {RNG : Type} (gauss : RNG -> R * RNG) (n m : nat) (g : RNG) :
  Forall (fun e => length e = m) (draws gauss n m g).
Proof.
  revert g. induction n as [|n IH]; intros g; simpl; [constructor|].
  pose proof (random_normal_length gauss m g) as Hlen.
  destruct (random_normal gauss m g) as [e g']. constructor; [done | apply IH].
Qed.

Lemma same_options_refl (self : ARI) : same_options self self.
Proof. by repeat split. Qed.

Lemma same_options_set_res_inv (self_j self : ARI) (t : DataFrame) :
  same_options self_j self -> same_options (set_res_inv self_j t) self.
Proof. intros H. exact H. Qed.

Lemma add_noise_ok (self : ARI) (df : DataFrame) (sigma_v sigma_h : R)
    (e Rv Rh : list R) :
  columns df !! "Rv" = Some Rv ->
  columns df !! "Rh" = Some Rh ->
  add_noise self df sigma_v sigma_h e =
    ok (setcol
          (setcol df "Rv"
             (zip_with (fun r n => r + n * (noise_lvl self / 100) * sigma_v) Rv e))
          "Rh"
          (zip_with (fun r n => r + n * (noise_lvl self / 100) * sigma_h) Rh e)).
Proof.
  intros HRv HRh. unfold add_noise.
  by rewrite (getcol_ok _ _ _ HRv), (getcol_ok _ _ _ HRh).
Qed.

Lemma add_noise_same_options (self_j self : ARI) (df : DataFrame)
    (sigma_v sigma_h : R) (e : list R) :
  same_options self_j self ->
  add_noise self_j df sigma_v sigma_h e = add_noise self df sigma_v sigma_h e.
Proof.
  intros (_ & _ & _ & _ & _ & _ & _ & Hn). unfold add_noise. by rewrite Hn.
Qed.

Lemma noisy_sample_table (df : DataFrame) (Rv' Rh' : list R) :
  sample_table df ->
  length Rv' = nrows df -> length Rh' = nrows df ->
  sample_table (setcol (setcol df "Rv" Rv') "Rh" Rh').
Proof.
  intros (Hcols & Hwf & Hpos) HlV HlH. unfold setcol. split; [|split].
  - intros c Hc. cbn [columns]. rewrite !lookup_insert.
    repeat case_decide; eauto.
  - intros c v. unfold nrows. cbn [columns index]. rewrite !lookup_insert.
    repeat case_decide; [intros [= <-]; done.. | apply Hwf].
  - done.
Qed.

(** What the table of a realization holds, and the end member its
    inversion worked with. *)
Lemma realization_facts (minimize : minimizer) (self : ARI) (df : DataFrame)
    (sigma_v sigma_h : R) (e : list R) (out : DataFrame) (GR Rv Rh : list R) :
  sample_table df ->
  columns df !! "GR" = Some GR ->
  columns df !! "Rv" = Some Rv ->
  columns df !! "Rh" = Some Rh ->
  length e = nrows df ->
  is_realization minimize self df sigma_v sigma_h e out ->
  exists k rv rh n df_noise,
    np_argmax GR = ok k /\ Rv !! k = Some rv /\ Rh !! k = Some rh /\ e !! k = Some n /\
    end_member df None None = ok (rv, rh) /\
    add_noise self df sigma_v sigma_h e = ok df_noise /\
    end_member df_noise None None =
      ok (rv + n * (noise_lvl self / 100) * sigma_v,
          rh + n * (noise_lvl self / 100) * sigma_h) /\
    columns out !! "Rv" =
      Some (zip_with (fun r n => r + n * (noise_lvl self / 100) * sigma_v) Rv e) /\
    columns out !! "Rh" =
      Some (zip_with (fun r n => r + n * (noise_lvl self / 100) * sigma_h) Rh e).
Proof.
  intros Hst HGR HRv HRh Hlen (self_j & df_noise & self' & df' & Hopt & Hadd & Hrun).
  pose proof Hst as (_ & Hwf & _).
  pose proof (Hwf _ _ HGR) as HlG. pose proof (Hwf _ _ HRv) as HlV.
  pose proof (Hwf _ _ HRh) as HlH.
  pose proof Hadd as Hadd'.
  rewrite (add_noise_ok self df sigma_v sigma_h e Rv Rh HRv HRh) in Hadd.
  injection Hadd as <-.
  set (Rv' := zip_with (fun r n => r + n * (noise_lvl self / 100) * sigma_v) Rv e) in *.
  set (Rh' := zip_with (fun r n => r + n * (noise_lvl self / 100) * sigma_h) Rh e) in *.
  assert (length Rv' = nrows df) as HlV' by (unfold Rv'; rewrite length_zip_with; lia).
  assert (length Rh' = nrows df) as HlH' by (unfold Rh'; rewrite length_zip_with; lia).
  pose proof (noisy_sample_table df Rv' Rh' Hst HlV' HlH') as Hst'.
  destruct (resistivity_inversion_ok minimize self_j _ None None GR Rv' Rh' Hst')
    as (k & rv' & rh' & res & Hk & Hrv' & Hrh' & Hend' & Hrun' & _ & _ & _ & HoRv & HoRh & _).
  { unfold setcol. cbn [columns]. by rewrite !lookup_insert_ne. }
  { unfold setcol. cbn [columns]. by rewrite lookup_insert_ne, lookup_insert_eq. }
  { unfold setcol. cbn [columns]. by rewrite lookup_insert_eq. }
  rewrite Hrun' in Hrun. injection Hrun as _ _ <-.
  unfold Rv' in Hrv'. unfold Rh' in Hrh'. rewrite lookup_zip_with in Hrv', Hrh'.
  destruct (Rv !! k) as [rv|] eqn:Hrv; [|discriminate].
  destruct (Rh !! k) as [rh|] eqn:Hrh; [|discriminate].
  destruct (e !! k) as [n|] eqn:Hn; [|discriminate].
  simpl in Hrv', Hrh'. injection Hrv' as <-. injection Hrh' as <-.
  destruct (end_member_ok df None None GR Rv Rh HGR HRv HRh)
    as (k0 & rv0 & rh0 & Hk0 & Hrv0 & Hrh0 & Hend); try lia.
  { destruct Hst as (_ & _ & Hpos). lia. }
  rewrite Hk in Hk0. injection Hk0 as <-.
  rewrite Hrv in Hrv0. injection Hrv0 as <-.
  rewrite Hrh in Hrh0. injection Hrh0 as <-.
  exists k, rv, rh, n. eexists.
  do 5 (split; [done|]). split; [exact Hadd'|]. done.
Qed.

Lemma uq_loop_ok (minimize : minimizer) {RNG : Type} (gauss : RNG -> R * RNG)
    (self : ARI) (df : DataFrame) (sigma_v sigma_h : R) :
  sample_table df ->
  forall (n : nat) (self_j : ARI) (g : RNG) (acc : list DataFrame),
    same_options self_j self ->
    exists self' g' outs,
      uq_loop minimize gauss n self_j df sigma_v sigma_h g acc = ok (self', g', acc ++ outs) /\
      Forall2 (is_realization minimize self df sigma_v sigma_h)
        (draws gauss n (nrows df) g) outs.
Proof.
  intros Hst.
  destruct (sample_table_column df "GR" Hst) as (GR & HGR & HlG); [set_solver|].
  destruct (sample_table_column df "Rv" Hst) as (Rv & HRv & HlV); [set_solver|].
  destruct (sample_table_column df "Rh" Hst) as (Rh & HRh & HlH); [set_solver|].
  induction n as [|n IH]; intros self_j g acc Hopt; simpl.
  - exists self_j, g, []. rewrite app_nil_r. split; [done | constructor].
  - pose proof (random_normal_length gauss (nrows df) g) as Hlen.
    destruct (random_normal gauss (nrows df) g) as [e g']. simpl in Hlen.
    rewrite (add_noise_same_options self_j self) by done.
    pose proof (add_noise_ok self df sigma_v sigma_h e Rv Rh HRv HRh) as Hadd.
    rewrite Hadd. simpl.
    set (Rv' := zip_with (fun r n => r + n * (noise_lvl self / 100) * sigma_v) Rv e) in *.
    set (Rh' := zip_with (fun r n => r + n * (noise_lvl self / 100) * sigma_h) Rh e) in *.
    assert (length Rv' = nrows df) as HlV' by (unfold Rv'; rewrite length_zip_with; lia).
    assert (length Rh' = nrows df) as HlH' by (unfold Rh'; rewrite length_zip_with; lia).
    pose proof (noisy_sample_table df Rv' Rh' Hst HlV' HlH') as Hst'.
    destruct (resistivity_inversion_ok minimize self_j _ None None GR Rv' Rh' Hst')
      as (k & rv' & rh' & res & _ & _ & _ & _ & Hrun & _).
    { unfold setcol. cbn [columns]. by rewrite !lookup_insert_ne. }
    { unfold setcol. cbn [columns]. by rewrite lookup_insert_ne, lookup_insert_eq. }
    { unfold setcol. cbn [columns]. by rewrite lookup_insert_eq. }
    rewrite Hrun. simpl.
    destruct (IH (set_res_inv self_j res) g' (acc ++ [res]))
      as (self' & g'' & outs & Hloop & Hall).
    { by apply same_options_set_res_inv. }
    exists self', g'', (res :: outs). split.
    + rewrite Hloop. by rewrite <- app_assoc.
    + constructor; [|done]. do 4 eexists. split; [exact Hopt|]. split; [exact Hadd|].
      exact Hrun.
Qed.

(** On a table of samples [inversion_uq] runs to the end and returns one
    table for each of the noise vectors, in the order of the draws. *)
Lemma inversion_uq_ok (minimize : minimizer) {RNG : Type} (gauss : RNG -> R * RNG)
    (self : ARI) (df : DataFrame) (g : RNG) (Rv Rh : list R) :
  sample_table df ->
  columns df !! "Rv" = Some Rv ->
  columns df !! "Rh" = Some Rh ->
  exists self' g' realizations,
    inversion_uq minimize gauss self df g = ok (self', g', realizations) /\
    Forall2 (is_realization minimize self df (np_std Rv) (np_std Rh))
      (draws gauss (n_ensemble self) (nrows df) g) realizations.
Proof.
  intros Hst HRv HRh. unfold inversion_uq.
  rewrite (getcol_ok _ _ _ HRv), (getcol_ok _ _ _ HRh). simpl.
  destruct (uq_loop_ok minimize gauss self df (np_std Rv) (np_std Rh) Hst
              (n_ensemble self) self g [] (same_options_refl self))
    as (self' & g' & outs & Hloop & Hall).
  exists self', g', outs. done.
Qed.

Lemma draws_count {RNG : Type} (gauss : RNG -> R * RNG) (n m : nat) (g : RNG) :
  length (draws gauss n m g) = n.
Proof.
  revert g. induction n as [|n IH]; intros g; simpl; [done|].
  destruct (random_normal gauss m g) as [e g']. simpl. by rewrite IH.
Qed.

Lemma draws_first {RNG : Type} (gauss : RNG -> R * RNG) (n m : nat) (g : RNG) :
  draws gauss (S n) m g !! 0%nat = Some (random_normal gauss m g).1.
Proof. simpl. by destruct (random_normal gauss m g). Qed.

(** C6.  On a table of samples the driver returns n_ensemble realizations.
    Realization j echoes the curves it was computed from, and they are
    Rv + e*(noise_lvl/100)*sigma_v and Rh + e*(noise_lvl/100)*sigma_h, where
    e is the j-th vector of standard-normal draws, of one entry per sample
    and the same for both curves, and sigma_v and sigma_h are the standard
    deviations of the Rv and Rh of the table passed in. *)
Theorem uq_perturbed_curves (minimize : minimizer) {RNG : Type}
    (gauss : RNG -> R * RNG) (self : ARI) (df : DataFrame) (g : RNG)
    (Rv Rh : list R) :
  sample_table df ->
  columns df !! "Rv" = Some Rv ->
  columns df !! "Rh" = Some Rh ->
  exists self' g' realizations,
    inversion_uq minimize gauss self df g = ok (self', g', realizations) /\
    length realizations = n_ensemble self /\
    forall j out,
      realizations !! j = Some out ->
      exists e,
        draws gauss (n_ensemble self) (nrows df) g !! j = Some e /\
        length e = nrows df /\
        columns out !! "Rv" =
          Some (zip_with (fun r n => r + n * (noise_lvl self / 100) * np_std Rv) Rv e) /\
        columns out !! "Rh" =
          Some (zip_with (fun r n => r + n * (noise_lvl self / 100) * np_std Rh) Rh e).
Proof.
  intros Hst HRv HRh.
  destruct (sample_table_column df "GR" Hst) as (GR & HGR & _); [set_solver|].
  destruct (inversion_uq_ok minimize gauss self df g Rv Rh Hst HRv HRh)
    as (self' & g' & reals & Hrun & Hall).
  exists self', g', reals. split; [done|]. split.
  - rewrite <- (Forall2_length _ _ _ Hall). apply draws_count.
  - intros j out Hj.
    destruct (Forall2_lookup_r _ _ _ _ _ Hall Hj) as (e & He & Hreal).
    pose proof (draws_length gauss (n_ensemble self) (nrows df) g) as Hlens.
    rewrite Forall_lookup in Hlens. pose proof (Hlens _ _ He) as Hlen.
    destruct (realization_facts minimize self df _ _ e out GR Rv Rh
                Hst HGR HRv HRh Hlen Hreal)
      as (k & rv & rh & n & df_noise & _ & _ & _ & _ & _ & _ & _ & HoRv & HoRh).
    exists e. done.
Qed.

Lemma uq_perturbed_curves_witness :
  exists self' g' realizations,
    inversion_uq (minimize_to 1.5) tape_gauss ARI_init df_clean [1; -1]
      = ok (self', g', realizations) /\
    length realizations = n_ensemble ARI_init /\
    forall j out,
      realizations !! j = Some out ->
      exists e,
        draws tape_gauss (n_ensemble ARI_init) (nrows df_clean) [1; -1] !! j = Some e /\
        length e = nrows df_clean /\
        columns out !! "Rv" =
          Some (zip_with (fun r n => r + n * (noise_lvl ARI_init / 100) * np_std [3; 4])
                  [3; 4] e) /\
        columns out !! "Rh" =
          Some (zip_with (fun r n => r + n * (noise_lvl ARI_init / 100) * np_std [2; 1])
                  [2; 1] e).
Proof.
  apply (uq_perturbed_curves (minimize_to 1.5) tape_gauss ARI_init df_clean
           [1; -1] [3; 4] [2; 1]).
  - apply two_samples_table; reflexivity.
  - reflexivity.
  - reflexivity.
Defined.

(** C2 (as the code has it).  The driver calls the nonlinear inversion on
    the noisy copy of the table and passes no end member, so the inversion
    of each realization estimates its own from the noisy copy: the noisy Rv
    and Rh of the sample of largest GR.  GR carries no noise, so this is
    the sample the table passed in has its end member at, and the two end
    members differ by the noise of that sample. *)
Theorem uq_end_member_of_realization (minimize : minimizer) {RNG : Type}
    (gauss : RNG -> R * RNG) (self : ARI) (df : DataFrame) (g : RNG)
    (GR Rv Rh : list R) :
  sample_table df ->
  columns df !! "GR" = Some GR ->
  columns df !! "Rv" = Some Rv ->
  columns df !! "Rh" = Some Rh ->
  exists self' g' realizations,
    inversion_uq minimize gauss self df g = ok (self', g', realizations) /\
    forall j out,
      realizations !! j = Some out ->
      exists e k rv rh n df_noise,
        draws gauss (n_ensemble self) (nrows df) g !! j = Some e /\
        is_realization minimize self df (np_std Rv) (np_std Rh) e out /\
        np_argmax GR = ok k /\
        Rv !! k = Some rv /\ Rh !! k = Some rh /\ e !! k = Some n /\
        end_member df None None = ok (rv, rh) /\
        add_noise self df (np_std Rv) (np_std Rh) e = ok df_noise /\
        end_member df_noise None None =
          ok (rv + n * (noise_lvl self / 100) * np_std Rv,
              rh + n * (noise_lvl self / 100) * np_std Rh).
Proof.
  intros Hst HGR HRv HRh.
  destruct (inversion_uq_ok minimize gauss self df g Rv Rh Hst HRv HRh)
    as (self' & g' & reals & Hrun & Hall).
  exists self', g', reals. split; [done|].
  intros j out Hj.
  destruct (Forall2_lookup_r _ _ _ _ _ Hall Hj) as (e & He & Hreal).
  pose proof (draws_length gauss (n_ensemble self) (nrows df) g) as Hlens.
  rewrite Forall_lookup in Hlens. pose proof (Hlens _ _ He) as Hlen.
  destruct (realization_facts minimize self df _ _ e out GR Rv Rh
              Hst HGR HRv HRh Hlen Hreal)
    as (k & rv & rh & n & df_noise & Hk & Hrv & Hrh & Hn & Hend & Hadd & Hend' & _).
  exists e, k, rv, rh, n, df_noise. done.
Qed.

Lemma uq_end_member_of_realization_witness :
  exists self' g' realizations,
    inversion_uq (minimize_to 1.5) tape_gauss ARI_init df_clean [1; 1]
      = ok (self', g', realizations) /\
    forall j out,
      realizations !! j = Some out ->
      exists e k rv rh n df_noise,
        draws tape_gauss (n_ensemble ARI_init) (nrows df_clean) [1; 1] !! j = Some e /\
        is_realization (minimize_to 1.5) ARI_init df_clean
          (np_std [3; 4]) (np_std [2; 1]) e out /\
        np_argmax [50; 80] = ok k /\
        [3; 4] !! k = Some rv /\ [2; 1] !! k = Some rh /\ e !! k = Some n /\
        end_member df_clean None None = ok (rv, rh) /\
        add_noise ARI_init df_clean (np_std [3; 4]) (np_std [2; 1]) e = ok df_noise /\
        end_member df_noise None None =
          ok (rv + n * (noise_lvl ARI_init / 100) * np_std [3; 4],
              rh + n * (noise_lvl ARI_init / 100) * np_std [2; 1]).
Proof.
  apply (uq_end_member_of_realization (minimize_to 1.5) tape_gauss ARI_init df_clean
           [1; 1] [50; 80] [3; 4] [2; 1]).
  - apply two_samples_table; reflexivity.
  - reflexivity.
  - reflexivity.
  - reflexivity.
Defined.

Lemma np_std_pair_pos (x y : R) : x <> y -> 0 < np_std [x; y].
Proof.
  intros Hne. unfold np_std. apply sqrt_lt_R0.
  unfold np_mean, np_sum. simpl.
  set (mu := (x + (y + 0)) / (1 + 1)).
  assert (mu = (x + y) / 2) as -> by (unfold mu; field).
  assert (0 < (x - y) * (x - y)) as Hsq.
  { destruct (Rtotal_order x y) as [?|[?|?]]; [nra | done | nra]. }
  replace (((x - (x + y) / 2) * (x - (x + y) / 2)
            + ((y - (x + y) / 2) * (y - (x + y) / 2) + 0)) / (1 + 1))
    with ((x - y) * (x - y) / 4) by field.
  lra.
Qed.

(** With the noise vector (1, 1) on the two-sample table, the first
    realization is inverted with an end member that is not the end member
    (4, 1) of the table passed in. *)
Lemma uq_end_member_differs :
  end_member df_clean None None = ok (4, 1) /\
  forall minimize : minimizer,
    exists self' g' realizations out df_noise rvsh rhsh,
      inversion_uq minimize tape_gauss ARI_init df_clean [1; 1]
        = ok (self', g', realizations) /\
      realizations !! 0%nat = Some out /\
      is_realization minimize ARI_init df_clean (np_std [3; 4]) (np_std [2; 1]) [1; 1] out /\
      add_noise ARI_init df_clean (np_std [3; 4]) (np_std [2; 1]) [1; 1] = ok df_noise /\
      end_member df_noise None None = ok (rvsh, rhsh) /\
      rvsh <> 4 /\ rhsh <> 1.
Proof.
  assert (sample_table df_clean) as Hst by (apply two_samples_table; reflexivity).
  assert (end_member df_clean None None = ok (4, 1)) as Hclean.
  { destruct (end_member_ok df_clean None None [50; 80] [3; 4] [2; 1])
      as (k & rv & rh & Hk & Hrv & Hrh & Hend); [reflexivity.. | simpl; lia |].
    rewrite argmax_two_samples in Hk. injection Hk as <-.
    injection Hrv as <-. injection Hrh as <-. exact Hend. }
  split; [done|]. intros minimize.
  destruct (inversion_uq_ok minimize tape_gauss ARI_init df_clean [1; 1] [3; 4] [2; 1] Hst)
    as (self' & g' & reals & Hrun & Hall); [reflexivity..|].
  assert (draws tape_gauss (n_ensemble ARI_init) (nrows df_clean) [1; 1] !! 0%nat
          = Some [1; 1]) as He.
  { change (n_ensemble ARI_init) with (S 99). by rewrite draws_first. }
  destruct (Forall2_lookup_l _ _ _ _ _ Hall He) as (out & Hout & Hreal).
  destruct (realization_facts minimize ARI_init df_clean (np_std [3; 4]) (np_std [2; 1])
              [1; 1] out [50; 80] [3; 4] [2; 1] Hst)
    as (k & rv & rh & n & df_noise & Hk & Hrv & Hrh & Hn & _ & Hadd & Hend' & _);
    [reflexivity.. | done |].
  rewrite argmax_two_samples in Hk. injection Hk as <-.
  injection Hrv as <-. injection Hrh as <-. injection Hn as <-.
  exists self', g', reals, out, df_noise. do 2 eexists.
  do 4 (split; [done|]). split; [exact Hend'|].
  pose proof (np_std_pair_pos 3 4). pose proof (np_std_pair_pos 2 1).
  simpl. split; lra.
Qed.

(** ** The code on small inputs *)

(** With the shale end member equal to the sample and Csh = 1 both
    residuals vanish, and the objective is the regularization term. *)
Example objective_at_end_member :
  objective ARI_init 2 4 (1, 1) 2 4 = 1e-4 * sqrt 2.
Proof.
  unfold objective, linalg_norm. simpl.
  replace ((1 * 2 + (1 - 1) * 1 - 2) / 2 * ((1 * 2 + (1 - 1) * 1 - 2) / 2)
           + ((1 / 4 + (1 - 1) / 1 - 1 / 4) * 4 * ((1 / 4 + (1 - 1) / 1 - 1 / 4) * 4) + 0))
    with 0 by field.
  replace (1 * 1 + (1 * 1 + 0)) with 2 by ring.
  rewrite sqrt_0. ring.
Qed.

(** Csh = 0.5 and Rs = 1 with the end member (6, 3): Rv_sim = 3.5 and
    Rh_sim = 1.5, 12.5 % and 25 % off the measured 4 and 2. *)
Example simulate_one_row :
  exists sim err,
    simulate 6 3 sol_one_row = ok sim /\ error sol_one_row sim = ok err /\
    columns sim !! "Rv_sim" = Some [3.5] /\ columns sim !! "Rh_sim" = Some [1.5] /\
    columns err !! "Rv_err" = Some [12.5] /\ columns err !! "Rh_err" = Some [25].
Proof.
  do 2 eexists. split; [reflexivity|]. split; [reflexivity|].
  cbn [columns].
  rewrite !lookup_insert_eq.
  rewrite (lookup_insert_ne _ "Rv_sim" "Rh_sim"), (lookup_insert_ne _ "Rv_err" "Rh_err")
    by done.
  rewrite !lookup_insert_eq. simpl.
  assert (0.5 * 6 + (1 - 0.5) * 1 = 3.5) as -> by lra.
  assert (1 / (0.5 / 3 + (1 - 0.5) / 1) = 1.5) as -> by (field_simplify; lra).
  assert (Rabs ((3.5 - 4) / 4) = 0.125) as ->.
  { unfold Rabs. destruct (Rcase_abs _); lra. }
  assert (Rabs ((1.5 - 2) / 2) = 0.25) as ->.
  { unfold Rabs. destruct (Rcase_abs _); lra. }
  repeat split; do 2 f_equal; lra.
Qed.

(** Equal end members make the quadratic linear: one root, then NaN. *)
Example quadratic_row_linear :
  quadratic_row eigvals_closed_form 2 2 (3, 1) = (Float (- 4 / 9), NaN).
Proof.
  unfold quadratic_row.
  rewrite (np_roots_degree1 eigvals_closed_form) by (try apply eigvals_closed_form_spec; lra).
  simpl. do 2 f_equal. field.
Qed.

(** All coefficients zero: no root, NaN twice. *)
Example quadratic_row_no_root :
  quadratic_row eigvals_closed_form 0 0 (0, 1) = (NaN, NaN).
Proof.
  unfold quadratic_row. rewrite np_roots_degree0 by lra. reflexivity.
Qed.

(** A table without rows raises at the first use of the end member. *)
Example empty_table_raises (minimize : minimizer) :
  resistivity_inversion minimize ARI_init
    (mkFrame [] (<["GR" := []]> (<["Rv" := []]> (<["Rh" := []]> ∅)))) None None
  = raise (ValueError "attempt to get argmax of an empty sequence").
Proof. reflexivity. Qed.

(** A table without the column GR raises KeyError. *)
Example missing_column_raises (minimize : minimizer) :
  resistivity_inversion minimize ARI_init
    (mkFrame [1000] (<["Rv" := [3]]> (<["Rh" := [2]]> ∅))) None None
  = raise (KeyError "GR").
Proof. reflexivity. Qed.

(** * Further properties *)

(** ** The choice of the end member *)

Lemma argmax_from_spec (v pre : list R) (best : R) (besti : nat) :
  pre !! besti = Some best ->
  (forall y, y ∈ pre -> y <= best) ->
  (forall j y, (j < besti)%nat -> pre !! j = Some y -> y < best) ->
  exists m,
    (pre ++ v) !! argmax_from best besti (length pre) v = Some m /\
    (forall y, y ∈ pre ++ v -> y <= m) /\
    (forall j y, (j < argmax_from best besti (length pre) v)%nat ->
                 (pre ++ v) !! j = Some y -> y < m).
Proof.
  revert pre best besti. induction v as [|x v IH]; intros pre best besti Hb Hmax Hfirst.
  - simpl. rewrite app_nil_r. exists best. done.
  - simpl. pose proof (lookup_lt_Some _ _ _ Hb) as Hlt.
    replace (S (length pre)) with (length (pre ++ [x]))
      by (rewrite length_app; simpl; lia).
    rewrite (cons_middle x pre v), app_assoc.
    destruct (Rlt_dec best x) as [Hx|Hx].
    + apply IH.
      * rewrite lookup_app_r by lia. by rewrite Nat.sub_diag.
      * intros y [Hy|Hy]%elem_of_app.
        -- specialize (Hmax y Hy). lra.
        -- apply list_elem_of_singleton in Hy as ->. lra.
      * intros j y Hj Hy. rewrite lookup_app_l in Hy by done.
        assert (y ∈ pre) as Hin by (apply list_elem_of_lookup; eauto).
        specialize (Hmax y Hin). lra.
    + apply IH.
      * by rewrite lookup_app_l.
      * intros y [Hy|Hy]%elem_of_app.
        -- by apply Hmax.
        -- apply list_elem_of_singleton in Hy as ->. lra.
      * intros j y Hj Hy. rewrite lookup_app_l in Hy by lia. by apply (Hfirst j).
Qed.

(** [np.argmax] returns the position of the first maximum. *)
Lemma np_argmax_first_maximum (v : list R) (k : nat) :
  np_argmax v = ok k ->
  exists m,
    v !! k = Some m /\
    (forall y, y ∈ v -> y <= m) /\
    (forall j y, (j < k)%nat -> v !! j = Some y -> y < m).
Proof.
  destruct v as [|x v]; [discriminate|]. intros [= <-].
  destruct (argmax_from_spec v [x] x 0) as (m & H1 & H2 & H3).
  - done.
  - intros y ->%list_elem_of_singleton. lra.
  - intros j y Hj. lia.
  - exists m. done.
Qed.

(** X1.  Without overrides the end member is the (Rv, Rh) of the first
    sample whose GR is the largest of the table: no sample has a larger GR
    and every earlier sample has a smaller one. *)
Theorem end_member_at_first_gr_maximum (df : DataFrame) (GR Rv Rh : list R) :
  sample_table df ->
  columns df !! "GR" = Some GR ->
  columns df !! "Rv" = Some Rv ->
  columns df !! "Rh" = Some Rh ->
  exists k gmax rv rh,
    GR !! k = Some gmax /\
    (forall g, g ∈ GR -> g <= gmax) /\
    (forall j g, (j < k)%nat -> GR !! j = Some g -> g < gmax) /\
    Rv !! k = Some rv /\ Rh !! k = Some rh /\
    end_member df None None = ok (rv, rh).
Proof.
  intros (_ & Hwf & Hpos) HGR HRv HRh.
  pose proof (Hwf _ _ HGR). pose proof (Hwf _ _ HRv). pose proof (Hwf _ _ HRh).
  destruct (end_member_ok df None None GR Rv Rh HGR HRv HRh)
    as (k & rv & rh & Hk & Hrv & Hrh & Hend); try lia.
  destruct (np_argmax_first_maximum GR k Hk) as (gmax & Hg & Hmax & Hfirst).
  exists k, gmax, rv, rh. done.
Qed.

Lemma end_member_at_first_gr_maximum_witness :
  exists k gmax rv rh,
    [50; 80] !! k = Some gmax /\
    (forall g, g ∈ [50; 80] -> g <= gmax) /\
    (forall j g, (j < k)%nat -> [50; 80] !! j = Some g -> g < gmax) /\
    [3; 4] !! k = Some rv /\ [2; 1] !! k = Some rh /\
    end_member df_clean None None = ok (rv, rh).
Proof.
  apply (end_member_at_first_gr_maximum df_clean [50; 80] [3; 4] [2; 1]).
  - apply two_samples_table; reflexivity.
  - reflexivity.
  - reflexivity.
  - reflexivity.
Defined.

(** ** Tables the inversion cannot work on *)

Ltac listed :=
  unfold input_columns;
  solve [ repeat first [ apply list_elem_of_here | apply list_elem_of_further ] ].

Lemma getcol_missing {A : Type} (df : Frame A) (c : string) :
  columns df !! c = None -> getcol df c = raise (KeyError c).
Proof. intros H. unfold getcol. by rewrite H. Qed.

Lemma select_missing {A : Type} (df : Frame A) (cs : list string) (c : string) :
  c ∈ cs ->
  columns df !! c = None ->
  (forall c', c' ∈ cs -> c' <> c -> is_Some (columns df !! c')) ->
  select df cs = raise (KeyError c).
Proof.
  intros Hc Hnone Hothers. unfold select.
  assert (select_cols df cs = raise (KeyError c)) as ->; [|done].
  induction cs as [|c0 cs IH]; [by apply elem_of_nil in Hc|].
  simpl. destruct (decide (c0 = c)) as [->|Hne].
  - by rewrite (getcol_missing _ _ Hnone).
  - destruct (Hothers c0) as [v Hv]; [by left | done |].
    rewrite (getcol_ok _ _ _ Hv). simpl.
    apply elem_of_cons in Hc as [->|Hc]; [done|].
    rewrite IH; [done | done |]. intros c' Hc' Hne'. apply Hothers; [by right | done].
Qed.

Lemma inversion_no_rows (minimize : minimizer) (self : ARI) (rvsh rhsh : R)
    (df : DataFrame) (Rh : list R) :
  columns df !! "Rv" = Some [] ->
  columns df !! "Rh" = Some Rh ->
  inversion minimize self rvsh rhsh df = raise (UnboundLocalError "jac1").
Proof.
  intros HRv HRh. unfold inversion.
  destruct (select_ok df ["Rv"; "Rh"]) as (t & Ht & _ & Hlook).
  { intros c Hc.
    apply elem_of_cons in Hc as [->|Hc]; [by rewrite HRv|].
    apply list_elem_of_singleton in Hc as ->. by rewrite HRh. }
  rewrite Ht. simpl.
  assert (columns t !! "Rv" = Some []) as HtRv.
  { rewrite Hlook, decide_True; [done | by left]. }
  assert (columns t !! "Rh" = Some Rh) as HtRh.
  { rewrite Hlook, decide_True; [done | right; by left]. }
  by rewrite (getcol_ok _ _ _ HtRv), (getcol_ok _ _ _ HtRh).
Qed.

(** X2.  On a table without rows the nonlinear inversion returns nothing.
    When it has to estimate an end member it raises the ValueError of
    [np.argmax]; when both are supplied it gets as far as line 131 and
    raises UnboundLocalError, [jac1] being bound only inside the loop. *)
Theorem inversion_of_empty_table (minimize : minimizer) (self : ARI) (df : DataFrame) :
  (forall c, c ∈ input_columns -> is_Some (columns df !! c)) ->
  wf_frame df ->
  nrows df = 0%nat ->
  (forall Rvsh Rhsh,
      Rvsh = None \/ Rhsh = None ->
      resistivity_inversion minimize self df Rvsh Rhsh
      = raise (ValueError "attempt to get argmax of an empty sequence")) /\
  (forall rvsh rhsh,
      resistivity_inversion minimize self df (Some rvsh) (Some rhsh)
      = raise (UnboundLocalError "jac1")).
Proof.
  intros Hcols Hwf Hn.
  assert (forall c, c ∈ input_columns -> columns df !! c = Some []) as Hnil.
  { intros c Hc. destruct (Hcols c Hc) as [v Hv]. rewrite Hv.
    pose proof (Hwf _ _ Hv) as Hl. rewrite Hn in Hl. by destruct v. }
  assert (columns df !! "GR" = Some []) as HGR by (apply Hnil; listed).
  assert (columns df !! "Rv" = Some []) as HRv by (apply Hnil; listed).
  assert (columns df !! "Rh" = Some []) as HRh by (apply Hnil; listed).
  split.
  - intros Rvsh Rhsh Hnone. unfold resistivity_inversion, end_member, end_member_value.
    rewrite (getcol_ok _ _ _ HGR), (getcol_ok _ _ _ HRv), (getcol_ok _ _ _ HRh).
    destruct Rvsh, Rhsh; simpl; try done. by destruct Hnone.
  - intros rvsh rhsh. unfold resistivity_inversion. simpl.
    rewrite (getcol_ok _ _ _ HGR). simpl.
    destruct (select_ok (setcol df "Csh_lin" (csh_lin []))
                ["AT10"; "AT30"; "AT60"; "AT90"; "GR"; "Csh_lin"])
      as (val & Hval & _).
    { intros c Hc. unfold setcol. cbn [columns].
      destruct (decide (c = "Csh_lin")) as [->|Hne].
      - rewrite lookup_insert_eq. eauto.
      - rewrite lookup_insert_ne by done. apply Hcols. unfold input_columns.
        repeat (apply elem_of_cons in Hc as [->|Hc]; [first [listed | done]|]).
        by apply elem_of_nil in Hc. }
    rewrite Hval. simpl.
    rewrite (inversion_no_rows minimize self rvsh rhsh _ []); [done | |].
    + unfold setcol. cbn [columns]. by rewrite lookup_insert_ne.
    + unfold setcol. cbn [columns]. by rewrite lookup_insert_ne.
Qed.

Lemma inversion_of_empty_table_witness :
  let df := mkFrame [] (<["AT10" := []]> (<["AT30" := []]> (<["AT60" := []]>
              (<["AT90" := []]> (<["GR" := []]> (<["Rv" := []]> (<["Rh" := []]> ∅))))))) in
  (forall Rvsh Rhsh,
      Rvsh = None \/ Rhsh = None ->
      resistivity_inversion (minimize_to 1.5) ARI_init df Rvsh Rhsh
      = raise (ValueError "attempt to get argmax of an empty sequence")) /\
  (forall rvsh rhsh,
      resistivity_inversion (minimize_to 1.5) ARI_init df (Some rvsh) (Some rhsh)
      = raise (UnboundLocalError "jac1")).
Proof.
  apply (inversion_of_empty_table (minimize_to 1.5) ARI_init).
  - intros c Hc. unfold input_columns in Hc. cbn [columns].
    repeat (apply elem_of_cons in Hc as [->|Hc];
            [repeat first [ rewrite lookup_insert_eq | rewrite lookup_insert_ne by done ];
             eauto|]).
    by apply elem_of_nil in Hc.
  - intros c v. unfold nrows. cbn [columns index].
    repeat (rewrite lookup_insert; case_decide; [intros [= <-]; done|]).
    by rewrite lookup_empty.
  - reflexivity.
Defined.

Lemma end_member_value_one_missing (df : DataFrame) (col c : string) (given : option R) :
  columns df !! c = None ->
  (forall c', c' ∈ input_columns -> c' <> c ->
     exists v, columns df !! c' = Some v /\ length v = nrows df) ->
  (0 < nrows df)%nat ->
  col ∈ input_columns ->
  end_member_value df col given = raise (KeyError c) \/
  exists r, end_member_value df col given = ok r.
Proof.
  intros Hnone Hothers Hpos Hcol. unfold end_member_value.
  destruct given as [r|]; [right; eauto|].
  destruct (decide (col = c)) as [->|Hne].
  { left. by rewrite (getcol_missing _ _ Hnone). }
  destruct (Hothers col Hcol Hne) as (v & Hv & Hlv).
  rewrite (getcol_ok _ _ _ Hv). simpl.
  destruct (decide ("GR" = c)) as [<-|HneG].
  { left. by rewrite (getcol_missing _ _ Hnone). }
  destruct (Hothers "GR") as (gr & Hgr & Hlg); [listed | done |].
  rewrite (getcol_ok _ _ _ Hgr). simpl.
  destruct (np_argmax_ok gr) as (k & Hk & Hlt); [lia|].
  rewrite Hk. simpl. unfold iloc.
  destruct (lookup_lt_is_Some_2 v k) as [r Hr]; [lia|].
  rewrite Hr. right. eauto.
Qed.

(** X3.  When one of the seven input columns is missing from a table that
    is otherwise a table of samples, the nonlinear inversion raises the
    KeyError of that column, whatever end member is supplied. *)
Theorem inversion_missing_column (minimize : minimizer) (self : ARI) (df : DataFrame)
    (Rvsh Rhsh : option R) (c : string) :
  c ∈ input_columns ->
  columns df !! c = None ->
  (forall c', c' ∈ input_columns -> c' <> c ->
     exists v, columns df !! c' = Some v /\ length v = nrows df) ->
  (0 < nrows df)%nat ->
  resistivity_inversion minimize self df Rvsh Rhsh = raise (KeyError c).
Proof.
  intros Hc Hnone Hothers Hpos.
  unfold resistivity_inversion, end_member.
  destruct (end_member_value_one_missing df "Rv" c Rvsh Hnone Hothers Hpos)
    as [->|[rv ->]]; [listed | done |]. simpl.
  destruct (end_member_value_one_missing df "Rh" c Rhsh Hnone Hothers Hpos)
    as [->|[rh ->]]; [listed | done |]. simpl.
  destruct (decide ("GR" = c)) as [<-|HneG].
  { by rewrite (getcol_missing _ _ Hnone). }
  destruct (Hothers "GR") as (gr & Hgr & Hlg); [listed | done |].
  rewrite (getcol_ok _ _ _ Hgr). simpl.
  set (df1 := setcol df "Csh_lin" (csh_lin gr)).
  assert (forall c', c' <> "Csh_lin" -> columns df1 !! c' = columns df !! c') as Hdf1.
  { intros c' Hne. unfold df1, setcol. cbn [columns]. by rewrite lookup_insert_ne. }
  assert (c <> "Csh_lin") as HcL.
  { intros ->. unfold input_columns in Hc.
    repeat (apply elem_of_cons in Hc as [Hc|Hc]; [discriminate Hc|]).
    by apply elem_of_nil in Hc. }
  destruct (decide (c ∈ ["AT10"; "AT30"; "AT60"; "AT90"; "GR"; "Csh_lin"])) as [Hin|Hout].
  - rewrite (select_missing df1 _ c Hin); [done | by rewrite Hdf1 |].
    intros c' Hc' Hne. destruct (decide (c' = "Csh_lin")) as [->|HneL].
    + unfold df1, setcol. cbn [columns]. rewrite lookup_insert_eq. eauto.
    + rewrite Hdf1 by done. destruct (Hothers c') as (v & -> & _); [|done|eauto].
      unfold input_columns.
      repeat (apply elem_of_cons in Hc' as [->|Hc']; [first [listed | done]|]).
      by apply elem_of_nil in Hc'.
  - destruct (select_ok df1 ["AT10"; "AT30"; "AT60"; "AT90"; "GR"; "Csh_lin"])
      as (val & -> & _).
    { intros c' Hc'. destruct (decide (c' = "Csh_lin")) as [->|HneL].
      - unfold df1, setcol. cbn [columns]. rewrite lookup_insert_eq. eauto.
      - rewrite Hdf1 by done.
        destruct (Hothers c') as (v & -> & _); [| |eauto].
        + unfold input_columns.
          repeat (apply elem_of_cons in Hc' as [->|Hc']; [first [listed | done]|]).
          by apply elem_of_nil in Hc'.
        + intros ->. done. }
    simpl. unfold inversion.
    assert (c ∈ ["Rv"; "Rh"]) as Hrv.
    { unfold input_columns in Hc.
      repeat (apply elem_of_cons in Hc as [->|Hc];
              [first [listed | exfalso; apply Hout; listed]|]).
      by apply elem_of_nil in Hc. }
    rewrite (select_missing df1 _ c Hrv); [done | by rewrite Hdf1 |].
    intros c' Hc' Hne. rewrite Hdf1.
    + destruct (Hothers c') as (v & -> & _); [|done|eauto].
      repeat (apply elem_of_cons in Hc' as [->|Hc']; [listed|]).
      by apply elem_of_nil in Hc'.
    + intros ->.
      repeat (apply elem_of_cons in Hc' as [Hc'|Hc']; [discriminate Hc'|]).
      by apply elem_of_nil in Hc'.
Qed.

Lemma inversion_missing_column_witness :
  resistivity_inversion (minimize_to 1.5) ARI_init
    (mkFrame [1000; 1000.5]
       (<["AT10" := [2; 3]]> (<["AT30" := [2; 3]]> (<["AT60" := [2; 3]]>
          (<["GR" := [50; 80]]> (<["Rv" := [3; 4]]> (<["Rh" := [2; 1]]> ∅)))))))
    None None
  = raise (KeyError "AT90").
Proof.
  apply (inversion_missing_column (minimize_to 1.5) ARI_init _ None None "AT90").
  - listed.
  - reflexivity.
  - intros c' Hc' Hne. unfold input_columns in Hc'. unfold nrows. cbn [columns index].
    repeat (apply elem_of_cons in Hc' as [->|Hc'];
            [first [ done
                   | repeat first [ rewrite lookup_insert_eq
                                  | rewrite lookup_insert_ne by done ]; eauto ]|]).
    by apply elem_of_nil in Hc'.
  - unfold nrows. simpl. lia.
Defined.

(** ** The objective and the model equations *)

Lemma sum_squares_zero (u v : R) : u * u + (v * v + 0) = 0 <-> u = 0 /\ v = 0.
Proof.
  split; [|intros [-> ->]; ring]. intros H.
  pose proof (Rle_0_sqr u) as Hu. pose proof (Rle_0_sqr v) as Hv. unfold Rsqr in Hu, Hv.
  assert (u * u = 0) as Hu0 by lra. assert (v * v = 0) as Hv0 by lra.
  split; [by destruct (Rmult_integral _ _ Hu0) | by destruct (Rmult_integral _ _ Hv0)].
Qed.

Lemma linalg_norm_pair_zero (u v : R) : linalg_norm [u; v] = 0 <-> u = 0 /\ v = 0.
Proof.
  unfold linalg_norm. simpl. rewrite <- sum_squares_zero. split.
  - apply sqrt_eq_0.
    pose proof (Rle_0_sqr u) as Hu. pose proof (Rle_0_sqr v) as Hv.
    unfold Rsqr in Hu, Hv. lra.
  - intros ->. apply sqrt_0.
Qed.

(** X4.  Without regularization and for a sample with Rv and Rh not zero,
    the objective vanishes exactly at the solutions of the two model
    equations, with the weighting on or off. *)
Theorem objective_zero_iff_model_equations (self : ARI)
    (Rvsh Rhsh Csh Rs Rv Rh : R) :
  lambda_reg self = 0 ->
  Rv <> 0 -> Rh <> 0 ->
  objective self Rvsh Rhsh (Csh, Rs) Rv Rh = 0 <->
  Csh * Rvsh + (1 - Csh) * Rs - Rv = 0 /\
  Csh / Rhsh + (1 - Csh) / Rs - 1 / Rh = 0.
Proof.
  intros Hlam HRv HRh. unfold objective. rewrite Hlam, Rmult_0_l, Rplus_0_r.
  destruct (Wd_matrix self); rewrite linalg_norm_pair_zero; [|done].
  split.
  - intros [H1 H2]. split.
    + apply (Rmult_eq_reg_r (/ Rv)); [|by apply Rinv_neq_0_compat].
      rewrite Rmult_0_l. exact H1.
    + apply (Rmult_eq_reg_r Rh); [|done]. rewrite Rmult_0_l. exact H2.
  - intros [H1 H2]. rewrite H1, H2. split; unfold Rdiv; ring.
Qed.

Lemma objective_zero_iff_model_equations_witness :
  objective (mkARI true true true "L-BFGS-B" 0 1e-3 100 (0.5, 1.5) true 100 10 None None)
    2 4 (1, 1) 2 4 = 0 <->
  1 * 2 + (1 - 1) * 1 - 2 = 0 /\ 1 / 4 + (1 - 1) / 1 - 1 / 4 = 0.
Proof.
  apply (objective_zero_iff_model_equations
           (mkARI true true true "L-BFGS-B" 0 1e-3 100 (0.5, 1.5) true 100 10 None None)
           2 4 1 1 2 4); simpl; [reflexivity | lra | lra].
Defined.

(** X5.  With a regularization coefficient that is not negative the
    objective is never below its regularization term, and so never
    negative. *)
Theorem objective_regularization_floor (self : ARI) (Rvsh Rhsh Csh Rs Rv Rh : R) :
  0 <= lambda_reg self ->
  0 <= lambda_reg self * linalg_norm [Csh; Rs] <= objective self Rvsh Rhsh (Csh, Rs) Rv Rh.
Proof.
  intros Hlam. unfold objective.
  set (eqs := if Wd_matrix self then _ else _).
  pose proof (sqrt_pos (foldr (fun x acc => x * x + acc) 0 eqs)) as H1.
  pose proof (sqrt_pos (foldr (fun x acc => x * x + acc) 0 [Csh; Rs])) as H2.
  unfold linalg_norm. split; [by apply Rmult_le_pos | lra].
Qed.

Lemma objective_regularization_floor_witness :
  0 <= lambda_reg ARI_init * linalg_norm [0.5; 1.5]
    <= objective ARI_init 6 3 (0.5, 1.5) 4 2.
Proof.
  apply (objective_regularization_floor ARI_init 6 3 0.5 1.5 4 2). simpl. lra.
Defined.

(** ** An exact fit *)

Lemma simulate_error_at_row (Rvsh Rhsh : R) (sol : DataFrame) (Csh Rs Rv Rh : list R) :
  columns sol !! "Csh" = Some Csh ->
  columns sol !! "Rs" = Some Rs ->
  columns sol !! "Rv" = Some Rv ->
  columns sol !! "Rh" = Some Rh ->
  exists sim err,
    simulate Rvsh Rhsh sol = ok sim /\ error sol sim = ok err /\
    columns sim !! "Rv_sim" =
      Some (zip_with (fun csh rs => csh * Rvsh + (1 - csh) * rs) Csh Rs) /\
    columns sim !! "Rh_sim" =
      Some ((fun r => 1 / r) <$>
            zip_with (fun csh rs => csh / Rhsh + (1 - csh) / rs) Csh Rs) /\
    columns err !! "Rv_err" =
      Some (zip_with (fun p t => Rabs ((p - t) / t) * 100)
              (zip_with (fun csh rs => csh * Rvsh + (1 - csh) * rs) Csh Rs) Rv) /\
    columns err !! "Rh_err" =
      Some (zip_with (fun p t => Rabs ((p - t) / t) * 100)
              ((fun r => 1 / r) <$>
               zip_with (fun csh rs => csh / Rhsh + (1 - csh) / rs) Csh Rs) Rh).
Proof.
  intros HCsh HRs HRv HRh. unfold simulate, error.
  rewrite (getcol_ok _ _ _ HCsh), (getcol_ok _ _ _ HRs). simpl.
  rewrite (getcol_ok _ _ _ HRv), (getcol_ok _ _ _ HRh). simpl.
  do 2 eexists. split; [reflexivity|]. split; [reflexivity|].
  cbn [columns].
  rewrite !lookup_insert_eq.
  rewrite (lookup_insert_ne _ "Rv_sim" "Rh_sim"), (lookup_insert_ne _ "Rv_err" "Rh_err")
    by done.
  rewrite !lookup_insert_eq. done.
Qed.

(** X6.  When the Csh and Rs of a row solve the two model equations for the
    row's Rv and Rh, none of Rv, Rh, Rs and Rhsh being zero, the forward
    simulation gives back Rv and Rh and both errors of the row are zero. *)
Theorem exact_fit_has_zero_error (Rvsh Rhsh : R) (sol : DataFrame)
    (Csh Rs Rv Rh : list R) (i : nat) (csh rs rv rh : R) :
  columns sol !! "Csh" = Some Csh ->
  columns sol !! "Rs" = Some Rs ->
  columns sol !! "Rv" = Some Rv ->
  columns sol !! "Rh" = Some Rh ->
  Csh !! i = Some csh -> Rs !! i = Some rs ->
  Rv !! i = Some rv -> Rh !! i = Some rh ->
  rv <> 0 -> rh <> 0 -> rs <> 0 -> Rhsh <> 0 ->
  csh * Rvsh + (1 - csh) * rs - rv = 0 ->
  csh / Rhsh + (1 - csh) / rs - 1 / rh = 0 ->
  exists sim err,
    simulate Rvsh Rhsh sol = ok sim /\ error sol sim = ok err /\
    at_row sim "Rv_sim" i = Some rv /\ at_row sim "Rh_sim" i = Some rh /\
    at_row err "Rv_err" i = Some 0 /\ at_row err "Rh_err" i = Some 0.
Proof.
  intros HCsh HRs HRv HRh Hc Hs Hv Hh _ Hrh _ _ Heq1 Heq2.
  destruct (simulate_error_at_row Rvsh Rhsh sol Csh Rs Rv Rh HCsh HRs HRv HRh)
    as (sim & err & Hsim & Herr & H1 & H2 & H3 & H4).
  exists sim, err. split; [done|]. split; [done|].
  assert (csh * Rvsh + (1 - csh) * rs = rv) as Hrv by lra.
  assert (1 / (csh / Rhsh + (1 - csh) / rs) = rh) as Hrh'.
  { replace (csh / Rhsh + (1 - csh) / rs) with (1 / rh) by lra. by field. }
  assert (forall t, Rabs ((t - t) / t) * 100 = 0) as Hzero.
  { intros t. replace ((t - t) / t) with 0 by (unfold Rdiv; ring).
    rewrite Rabs_R0. ring. }
  unfold at_row. rewrite H1, H2, H3, H4. simpl.
  rewrite !lookup_zip_with, !list_lookup_fmap, !lookup_zip_with, Hc, Hs, Hv, Hh. simpl.
  rewrite Hrv, Hrh', !Hzero. done.
Qed.

Lemma exact_fit_has_zero_error_witness :
  exists sim err,
    simulate 6 3 (mkFrame [1000]
                    (<["Rv" := [3.5]]> (<["Rh" := [1.5]]>
                       (<["Csh" := [0.5]]> (<["Rs" := [1]]> ∅))))) = ok sim /\
    error (mkFrame [1000]
             (<["Rv" := [3.5]]> (<["Rh" := [1.5]]>
                (<["Csh" := [0.5]]> (<["Rs" := [1]]> ∅))))) sim = ok err /\
    at_row sim "Rv_sim" 0 = Some 3.5 /\ at_row sim "Rh_sim" 0 = Some 1.5 /\
    at_row err "Rv_err" 0 = Some 0 /\ at_row err "Rh_err" 0 = Some 0.
Proof.
  apply (exact_fit_has_zero_error 6 3 _ [0.5] [1] [3.5] [1.5] 0 0.5 1 3.5 1.5);
    try reflexivity; lra.
Defined.

(** ** Special samples of the quadratic inversion *)

Lemma np_roots_zero_constant eigvals (a b : R) :
  eigvals_spec eigvals -> a <> 0 ->
  np_roots eigvals [a; b; 0] = FloatArray [- b / a; 0].
Proof.
  intros [H1 _] Ha. unfold np_roots. simpl.
  rewrite (is_zero_true 0 eq_refl). zeros.
  destruct (Req_dec_T b 0) as [Hb|Hb]; zeros; simpl.
  - subst b. do 2 f_equal. by field.
  - by rewrite H1.
Qed.

(** X7.  For a sample with Rv = Rh (not zero) and end members that differ,
    the constant coefficient vanishes: both roots are real, the second is
    0 and the first is -b/a. *)
Theorem quadratic_row_isotropic_sample eigvals (Rvsh Rhsh r : R) :
  eigvals_spec eigvals ->
  r <> 0 -> Rvsh <> Rhsh ->
  quadratic_row eigvals Rvsh Rhsh (r, r) =
    (Float (- (r ^ 2 + Rvsh * Rhsh - 2 * r * Rhsh) / (r * Rvsh - r * Rhsh)), Float 0).
Proof.
  intros Hspec Hr Hsh. unfold quadratic_row.
  replace (r * Rhsh - r * Rhsh) with 0 by ring.
  rewrite np_roots_zero_constant; [done | done |].
  intros H. assert (r * (Rvsh - Rhsh) = 0) as H' by lra.
  destruct (Rmult_integral _ _ H'); [done | lra].
Qed.

Lemma quadratic_row_isotropic_sample_witness :
  quadratic_row eigvals_closed_form 6 3 (2, 2) =
    (Float (- (2 ^ 2 + 6 * 3 - 2 * 2 * 3) / (2 * 6 - 2 * 3)), Float 0).
Proof.
  apply (quadratic_row_isotropic_sample eigvals_closed_form 6 3 2).
  - apply eigvals_closed_form_spec.
  - lra.
  - lra.
Defined.

(** X8.  With equal end members (Rvsh = Rhsh) the leading coefficient
    vanishes and the equation is linear: the first field is the root -c/b
    and the second is NaN, provided b is not zero. *)
Theorem quadratic_row_equal_end_members eigvals (Rsh Rv Rh : R) :
  eigvals_spec eigvals ->
  Rv ^ 2 + Rsh * Rsh - 2 * Rh * Rsh <> 0 ->
  quadratic_row eigvals Rsh Rsh (Rv, Rh) =
    (Float (- (Rv * Rsh - Rh * Rsh) / (Rv ^ 2 + Rsh * Rsh - 2 * Rh * Rsh)), NaN).
Proof.
  intros Hspec Hb. unfold quadratic_row.
  rewrite (np_roots_degree1 eigvals) by (try done; ring). reflexivity.
Qed.

Lemma quadratic_row_equal_end_members_witness :
  quadratic_row eigvals_closed_form 2 2 (3, 1) =
    (Float (- (3 * 2 - 1 * 2) / (3 ^ 2 + 2 * 2 - 2 * 1 * 2)), NaN).
Proof.
  apply (quadratic_row_equal_end_members eigvals_closed_form 2 3 1).
  - apply eigvals_closed_form_spec.
  - lra.
Defined.

Lemma is_complex_as_complex (c : cell) : is_complex (as_complex c) = true.
Proof. by destruct c. Qed.

(** X9.  On a table of samples [quadratic_inversion] raises nothing,
    stores the table it returns as quad_inv and keeps the index of the
    table passed in.  Each of the columns Csh_q1 and Csh_q2 has one cell
    per sample and one dtype, and the cell of sample i has the value of the
    root that [quadratic_row] gives for the sample with the end member
    resolved for the table: that very value in a float column, and the
    value as a complex number (x+0j for a real x, nan+0j for a missing
    root) in a complex column. *)
Theorem quadratic_inversion_rows eigvals (self : ARI) (df : DataFrame)
    (Rvsh Rhsh : option R) (Rv Rh : list R) :
  sample_table df ->
  columns df !! "Rv" = Some Rv ->
  columns df !! "Rh" = Some Rh ->
  exists rvsh rhsh t q1 q2,
    end_member df Rvsh Rhsh = ok (rvsh, rhsh) /\
    quadratic_inversion eigvals self df Rvsh Rhsh = ok (set_quad_inv self t, t) /\
    index t = index df /\
    columns t !! "Csh_q1" = Some q1 /\ columns t !! "Csh_q2" = Some q2 /\
    length q1 = nrows df /\ length q2 = nrows df /\
    (Forall (fun c => is_complex c = false) q1 \/
     Forall (fun c => is_complex c = true) q1) /\
    (Forall (fun c => is_complex c = false) q2 \/
     Forall (fun c => is_complex c = true) q2) /\
    forall i rv rh,
      Rv !! i = Some rv -> Rh !! i = Some rh ->
      let row := quadratic_row eigvals rvsh rhsh (rv, rh) in
      exists c1 c2,
        q1 !! i = Some c1 /\ q2 !! i = Some c2 /\
        as_complex c1 = as_complex row.1 /\ as_complex c2 = as_complex row.2 /\
        (is_complex c1 = false -> c1 = row.1) /\
        (is_complex c2 = false -> c2 = row.2).
Proof.
  intros Hst HRv HRh.
  pose proof Hst as (_ & Hwf & _).
  pose proof (Hwf _ _ HRv) as HlV. pose proof (Hwf _ _ HRh) as HlH.
  destruct (quadratic_inversion_ok eigvals self df Rvsh Rhsh Rv Rh Hst HRv HRh)
    as (rvsh & rhsh & t & Hend & Hrun & Hidx & Hq1 & Hq2).
  do 5 eexists. do 3 (split; [done|]). split; [exact Hq1|]. split; [exact Hq2|].
  split; [rewrite column_of_length, length_fmap, length_zip; lia|].
  split; [rewrite column_of_length, length_fmap, length_zip; lia|].
  split; [apply column_of_one_dtype|]. split; [apply column_of_one_dtype|].
  intros i rv rh Hv Hh row.
  assert (zip Rv Rh !! i = Some (rv, rh)) as Hz.
  { by rewrite lookup_zip_with, Hv, Hh. }
  do 2 eexists.
  split; [apply column_of_lookup; by rewrite list_lookup_fmap, Hz|].
  split; [apply column_of_lookup; by rewrite list_lookup_fmap, Hz|].
  simpl. fold row.
  repeat split;
    match goal with
    | |- context [existsb is_complex ?l] => destruct (existsb is_complex l)
    end;
    rewrite ?as_complex_idemp, ?is_complex_as_complex; done.
Qed.

Lemma quadratic_inversion_rows_witness :
  exists rvsh rhsh t q1 q2,
    end_member df_clean None None = ok (rvsh, rhsh) /\
    quadratic_inversion eigvals_closed_form ARI_init df_clean None None
      = ok (set_quad_inv ARI_init t, t) /\
    index t = index df_clean /\
    columns t !! "Csh_q1" = Some q1 /\ columns t !! "Csh_q2" = Some q2 /\
    length q1 = nrows df_clean /\ length q2 = nrows df_clean /\
    (Forall (fun c => is_complex c = false) q1 \/
     Forall (fun c => is_complex c = true) q1) /\
    (Forall (fun c => is_complex c = false) q2 \/
     Forall (fun c => is_complex c = true) q2) /\
    forall i rv rh,
      [3; 4] !! i = Some rv -> [2; 1] !! i = Some rh ->
      let row := quadratic_row eigvals_closed_form rvsh rhsh (rv, rh) in
      exists c1 c2,
        q1 !! i = Some c1 /\ q2 !! i = Some c2 /\
        as_complex c1 = as_complex row.1 /\ as_complex c2 = as_complex row.2 /\
        (is_complex c1 = false -> c1 = row.1) /\
        (is_complex c2 = false -> c2 = row.2).
Proof.
  apply (quadratic_inversion_rows eigvals_closed_form ARI_init df_clean None None
           [3; 4] [2; 1]).
  - apply two_samples_table; reflexivity.
  - reflexivity.
  - reflexivity.
Defined.

(** Two samples for the end member (1, 2).  The roots of the first are
    complex; those of the second (a = -2, b = -2, c = 0) are the reals -1
    and 0, stored as -1+0j and 0+0j in the complex columns. *)
Example quadratic_table_mixed_roots eigvals :
  eigvals_spec eigvals ->
  exists self' t re1 im1 re2 im2,
    quadratic_inversion eigvals ARI_init (two_samples [3; 2] [4; 2]) (Some 1) (Some 2)
      = ok (self', t) /\
    columns t !! "Csh_q1" = Some [Complex re1 im1; Complex (-1) 0] /\
    columns t !! "Csh_q2" = Some [Complex re2 im2; Complex 0 0].
Proof.
  intros Hspec.
  destruct (quadratic_inversion_ok eigvals ARI_init (two_samples [3; 2] [4; 2])
              (Some 1) (Some 2) [3; 2] [4; 2])
    as (rvsh & rhsh & t & Hend & Hrun & _ & Hq1 & Hq2);
    [apply two_samples_table; reflexivity | reflexivity..|].
  injection Hend as <- <-.
  destruct (quadratic_row_complex_sample eigvals Hspec) as (re1 & im1 & re2 & im2 & Hc).
  assert (quadratic_row eigvals 1 2 (2, 2) = (Float (-1), Float 0)) as Hr.
  { unfold quadratic_row. replace (2 * 2 - 2 * 2) with 0 by ring.
    rewrite np_roots_zero_constant; [|done|lra]. simpl. do 2 f_equal. field. }
  exists (set_quad_inv ARI_init t), t, re1, im1, re2, im2.
  split; [done|].
  rewrite Hq1, Hq2. cbn [zip zip_with fmap list_fmap]. rewrite Hc, Hr. done.
Qed.

(** ** The ends of the gamma-ray proxy *)

Lemma foldl_Rmin_in (v : list R) (x : R) : foldl Rmin x v ∈ x :: v.
Proof.
  revert x. induction v as [|y v IH]; intros x; simpl; [by left|].
  specialize (IH (Rmin x y)).
  apply elem_of_cons in IH as [->|IH]; [|by do 2 right].
  unfold Rmin. destruct (Rle_dec x y); [by left | right; by left].
Qed.

Lemma foldl_Rmax_in (v : list R) (x : R) : foldl Rmax x v ∈ x :: v.
Proof.
  revert x. induction v as [|y v IH]; intros x; simpl; [by left|].
  specialize (IH (Rmax x y)).
  apply elem_of_cons in IH as [->|IH]; [|by do 2 right].
  unfold Rmax. destruct (Rle_dec x y); [right; by left | by left].
Qed.

(** X10.  When GR is not constant the proxy Csh_lin is 0 at a sample of
    smallest GR and 1 at a sample of largest GR, and it orders the samples
    as GR does. *)
Theorem csh_lin_attains_bounds (gr : list R) :
  series_min gr < series_max gr ->
  (exists i, gr !! i = Some (series_min gr) /\ csh_lin gr !! i = Some 0) /\
  (exists j, gr !! j = Some (series_max gr) /\ csh_lin gr !! j = Some 1) /\
  (forall i j gi gj ci cj,
      gr !! i = Some gi -> gr !! j = Some gj -> gi <= gj ->
      csh_lin gr !! i = Some ci -> csh_lin gr !! j = Some cj -> ci <= cj).
Proof.
  intros Hlt.
  assert (0 < series_max gr - series_min gr) as Hd by lra.
  assert (forall i g, gr !! i = Some g ->
            csh_lin gr !! i = Some ((g - series_min gr) / (series_max gr - series_min gr)))
    as Hrow.
  { intros i g Hg. unfold csh_lin. by rewrite list_lookup_fmap, Hg. }
  destruct gr as [|x v]; [simpl in Hlt; lra|].
  split; [|split].
  - pose proof (foldl_Rmin_in v x) as Hin.
    apply list_elem_of_lookup in Hin as [i Hi]. exists i. split; [done|].
    rewrite (Hrow _ _ Hi). f_equal. change (foldl Rmin x v) with (series_min (x :: v)).
    unfold Rdiv. ring.
  - pose proof (foldl_Rmax_in v x) as Hin.
    apply list_elem_of_lookup in Hin as [j Hj]. exists j. split; [done|].
    rewrite (Hrow _ _ Hj). f_equal. change (foldl Rmax x v) with (series_max (x :: v)).
    field. lra.
  - intros i j gi gj ci cj Hi Hj Hle Hci Hcj.
    rewrite (Hrow _ _ Hi) in Hci. rewrite (Hrow _ _ Hj) in Hcj.
    injection Hci as <-. injection Hcj as <-.
    apply Rmult_le_compat_r; [|lra].
    left. by apply Rinv_0_lt_compat.
Qed.

Lemma csh_lin_attains_bounds_witness :
  (exists i, [50; 80] !! i = Some (series_min [50; 80]) /\
             csh_lin [50; 80] !! i = Some 0) /\
  (exists j, [50; 80] !! j = Some (series_max [50; 80]) /\
             csh_lin [50; 80] !! j = Some 1) /\
  (forall i j gi gj ci cj,
      [50; 80] !! i = Some gi -> [50; 80] !! j = Some gj -> gi <= gj ->
      csh_lin [50; 80] !! i = Some ci -> csh_lin [50; 80] !! j = Some cj -> ci <= cj).
Proof.
  apply (csh_lin_attains_bounds [50; 80]).
  apply (series_min_lt_max [50; 80] 50 80); [by left | right; by left | lra].
Defined.

(** ** The columns of the table returned *)

Lemma inversion_columns (minimize : minimizer) (self : ARI) (rvsh rhsh : R)
    (df : DataFrame) (Rv Rh : list R) :
  columns df !! "Rv" = Some Rv ->
  columns df !! "Rh" = Some Rh ->
  length Rv = length Rh -> (0 < length Rv)%nat ->
  let sols := solve_row minimize self rvsh rhsh <$> zip Rv Rh in
  inversion minimize self rvsh rhsh df =
    ok (mkFrame (index df)
          (<["norm_jac" := (fun j => linalg_norm [j.1; j.2]) <$> (res_jac <$> sols)]>
           (<["jac2" := snd <$> (res_jac <$> sols)]>
            (<["jac1" := fst <$> (res_jac <$> sols)]>
             (<["nfev" := (fun s => INR (res_nfev s)) <$> sols]>
              (<["fun" := res_fun <$> sols]>
               (<["Rv" := Rv]>
                (<["Rh" := Rh]>
                 (<["Csh" := (fun s => (res_x s).1) <$> sols]>
                  (<["Rs" := (fun s => (res_x s).2) <$> sols]> ∅)))))))))).
Proof.
  intros HRv HRh Hlen Hpos sols. subst sols. unfold inversion.
  destruct (select_ok df ["Rv"; "Rh"]) as (t & Ht & Hidx & Hlook).
  { intros c Hc.
    apply elem_of_cons in Hc as [->|Hc]; [by rewrite HRv|].
    apply list_elem_of_singleton in Hc as ->. by rewrite HRh. }
  rewrite Ht. simpl.
  assert (columns t !! "Rv" = Some Rv) as HtRv.
  { rewrite Hlook, decide_True; [done | by left]. }
  assert (columns t !! "Rh" = Some Rh) as HtRh.
  { rewrite Hlook, decide_True; [done | right; by left]. }
  rewrite (getcol_ok _ _ _ HtRv). simpl. rewrite (getcol_ok _ _ _ HtRh). simpl.
  assert ((zip Rv Rh).*1 = Rv) as Hfst by (apply fst_zip; lia).
  assert ((zip Rv Rh).*2 = Rh) as Hsnd by (apply snd_zip; lia).
  assert (zip Rv Rh <> []) as Hne.
  { destruct Rv, Rh; simpl in *; try lia; done. }
  destruct (zip Rv Rh) as [|r rows]; [done|].
  cbv beta iota zeta. unfold setcol. cbn [columns index].
  by rewrite Hfst, Hsnd, Hidx.
Qed.

Ltac lookup_in_columns :=
  repeat first
    [ rewrite lookup_insert_eq
    | rewrite lookup_insert_ne by done
    | rewrite lookup_empty ].

Ltac union_none Hnone :=
  repeat apply lookup_union_None_2;
  first [ apply Hnone; not_listed | lookup_in_columns; reflexivity ].

Ltac union_lookup Hnone :=
  repeat match goal with
    | |- (?m1 ∪ ?m2) !! ?c = Some _ =>
        first [ rewrite (lookup_union_r m1 m2 c) by union_none Hnone
              | apply lookup_union_Some_l ]
    end;
  lookup_in_columns; reflexivity.

(** Every column the solver, the simulator and the error metric add to
    the table returned, in terms of the solver's answers. *)
Lemma resistivity_inversion_columns (minimize : minimizer) (self : ARI)
    (df : DataFrame) (Rvsh Rhsh : option R) (GR Rv Rh : list R) :
  sample_table df ->
  columns df !! "GR" = Some GR ->
  columns df !! "Rv" = Some Rv ->
  columns df !! "Rh" = Some Rh ->
  exists rvsh rhsh self' df' res,
    end_member df Rvsh Rhsh = ok (rvsh, rhsh) /\
    resistivity_inversion minimize self df Rvsh Rhsh = ok (self', df', res) /\
    let sols := solve_row minimize self rvsh rhsh <$> zip Rv Rh in
    let Csh := (fun s => (res_x s).1) <$> sols in
    let Rs := (fun s => (res_x s).2) <$> sols in
    let Rv_sim := zip_with (fun csh rs => csh * rvsh + (1 - csh) * rs) Csh Rs in
    let Rh_sim :=
      (fun r => 1 / r) <$> zip_with (fun csh rs => csh / rhsh + (1 - csh) / rs) Csh Rs in
    columns res !! "Rv" = Some Rv /\
    columns res !! "Rh" = Some Rh /\
    columns res !! "Csh" = Some Csh /\
    columns res !! "Rs" = Some Rs /\
    columns res !! "fun" = Some (res_fun <$> sols) /\
    columns res !! "nfev" = Some ((fun s => INR (res_nfev s)) <$> sols) /\
    columns res !! "jac1" = Some (fst <$> (res_jac <$> sols)) /\
    columns res !! "jac2" = Some (snd <$> (res_jac <$> sols)) /\
    columns res !! "norm_jac" =
      Some ((fun j => linalg_norm [j.1; j.2]) <$> (res_jac <$> sols)) /\
    columns res !! "Rv_sim" = Some Rv_sim /\
    columns res !! "Rh_sim" = Some Rh_sim /\
    columns res !! "Rv_err" =
      Some (zip_with (fun p t => Rabs ((p - t) / t) * 100) Rv_sim Rv) /\
    columns res !! "Rh_err" =
      Some (zip_with (fun p t => Rabs ((p - t) / t) * 100) Rh_sim Rh).
Proof.
  intros Hst HGR HRv HRh.
  pose proof Hst as (Hcols & Hwf & Hpos).
  pose proof (Hwf _ _ HGR) as HlG. pose proof (Hwf _ _ HRv) as HlV.
  pose proof (Hwf _ _ HRh) as HlH.
  destruct (end_member_ok df Rvsh Rhsh GR Rv Rh) as (k & rv & rh & Hk & Hrv & Hrh & Hend);
    try done; try lia.
  exists (default rv Rvsh), (default rh Rhsh).
  set (rvsh := default rv Rvsh) in *. set (rhsh := default rh Rhsh) in *.
  unfold resistivity_inversion. rewrite Hend. simpl.
  rewrite (getcol_ok _ _ _ HGR). simpl.
  set (df1 := setcol df "Csh_lin" (csh_lin GR)).
  destruct (select_ok df1 ["AT10"; "AT30"; "AT60"; "AT90"; "GR"; "Csh_lin"])
    as (val & Hval & Hvidx & Hvlook).
  { intros c Hc. unfold df1, setcol. cbn [columns].
    destruct (decide (c = "Csh_lin")) as [->|Hne].
    - rewrite lookup_insert_eq. eauto.
    - rewrite lookup_insert_ne by done. apply Hcols.
      repeat (apply elem_of_cons in Hc as [->|Hc]; [first [listed | done]|]).
      by apply elem_of_nil in Hc. }
  rewrite Hval. simpl.
  rewrite (inversion_columns minimize self rvsh rhsh df1 Rv Rh); try lia.
  2: { unfold df1, setcol. cbn [columns]. by rewrite lookup_insert_ne. }
  2: { unfold df1, setcol. cbn [columns]. by rewrite lookup_insert_ne. }
  simpl. unfold simulate, error, getcol. cbn [columns index].
  lookup_in_columns. simpl. lookup_in_columns. simpl.
  do 3 eexists. split; [done|]. split; [reflexivity|].
  unfold join. cbn [columns index].
  assert (forall c, c ∉ ["AT10"; "AT30"; "AT60"; "AT90"; "GR"; "Csh_lin"] ->
            columns val !! c = None) as Hnone.
  { intros c Hc. by rewrite Hvlook, decide_False. }
  cbv zeta.
  repeat split; union_lookup Hnone.
Qed.

(** Row i of the table returned, in terms of the solver's answer for the
    sample (rv, rh) of that row. *)
Lemma result_row (minimize : minimizer) (self : ARI) (df : DataFrame)
    (Rvsh Rhsh : option R) (GR Rv Rh : list R) :
  sample_table df ->
  columns df !! "GR" = Some GR ->
  columns df !! "Rv" = Some Rv ->
  columns df !! "Rh" = Some Rh ->
  exists rvsh rhsh self' df' res,
    end_member df Rvsh Rhsh = ok (rvsh, rhsh) /\
    resistivity_inversion minimize self df Rvsh Rhsh = ok (self', df', res) /\
    columns res !! "Rv" = Some Rv /\
    columns res !! "Rh" = Some Rh /\
    forall i rv rh,
      Rv !! i = Some rv -> Rh !! i = Some rh ->
      let s := solve_row minimize self rvsh rhsh (rv, rh) in
      let csh := (res_x s).1 in
      let rs := (res_x s).2 in
      let rv_sim := csh * rvsh + (1 - csh) * rs in
      let rh_sim := 1 / (csh / rhsh + (1 - csh) / rs) in
      at_row res "Csh" i = Some csh /\
      at_row res "Rs" i = Some rs /\
      at_row res "fun" i = Some (res_fun s) /\
      at_row res "nfev" i = Some (INR (res_nfev s)) /\
      at_row res "jac1" i = Some (res_jac s).1 /\
      at_row res "jac2" i = Some (res_jac s).2 /\
      at_row res "norm_jac" i = Some (linalg_norm [(res_jac s).1; (res_jac s).2]) /\
      at_row res "Rv_sim" i = Some rv_sim /\
      at_row res "Rh_sim" i = Some rh_sim /\
      at_row res "Rv_err" i = Some (Rabs ((rv_sim - rv) / rv) * 100) /\
      at_row res "Rh_err" i = Some (Rabs ((rh_sim - rh) / rh) * 100).
Proof.
  intros Hst HGR HRv HRh.
  destruct (resistivity_inversion_columns minimize self df Rvsh Rhsh GR Rv Rh
              Hst HGR HRv HRh)
    as (rvsh & rhsh & self' & df' & res & Hend & Hrun & H).
  cbv zeta in H.
  destruct H as (H1 & H2 & H3 & H4 & H5 & H6 & H7 & H8 & H9 & H10 & H11 & H12 & H13).
  exists rvsh, rhsh, self', df', res. do 4 (split; [done|]).
  intros i rv rh Hv Hh. cbv zeta.
  assert (zip Rv Rh !! i = Some (rv, rh)) as Hz.
  { by rewrite lookup_zip_with, Hv, Hh. }
  unfold at_row.
  rewrite H3, H4, H5, H6, H7, H8, H9, H10, H11, H12, H13. simpl.
  rewrite !lookup_zip_with, !list_lookup_fmap, !lookup_zip_with, !list_lookup_fmap.
  rewrite Hz, Hv, Hh. simpl. done.
Qed.

(** X11.  The table returned is consistent row by row: Rv_sim and Rh_sim
    are the forward model at the row's Csh and Rs with the end member the
    call resolved, Rv_err and Rh_err are the relative errors in percent
    against the row's Rv and Rh, and no error is negative. *)
Theorem returned_table_rows_consistent (minimize : minimizer) (self : ARI)
    (df : DataFrame) (Rvsh Rhsh : option R) :
  sample_table df ->
  exists rvsh rhsh self' df' res,
    end_member df Rvsh Rhsh = ok (rvsh, rhsh) /\
    resistivity_inversion minimize self df Rvsh Rhsh = ok (self', df', res) /\
    forall i csh rs rv rh,
      at_row res "Csh" i = Some csh -> at_row res "Rs" i = Some rs ->
      at_row res "Rv" i = Some rv -> at_row res "Rh" i = Some rh ->
      let rv_sim := csh * rvsh + (1 - csh) * rs in
      let rh_sim := 1 / (csh / rhsh + (1 - csh) / rs) in
      at_row res "Rv_sim" i = Some rv_sim /\
      at_row res "Rh_sim" i = Some rh_sim /\
      at_row res "Rv_err" i = Some (Rabs ((rv_sim - rv) / rv) * 100) /\
      at_row res "Rh_err" i = Some (Rabs ((rh_sim - rh) / rh) * 100) /\
      0 <= Rabs ((rv_sim - rv) / rv) * 100 /\
      0 <= Rabs ((rh_sim - rh) / rh) * 100.
Proof.
  intros Hst.
  destruct (sample_table_column df "GR" Hst) as (GR & HGR & _); [listed|].
  destruct (sample_table_column df "Rv" Hst) as (Rv & HRv & _); [listed|].
  destruct (sample_table_column df "Rh" Hst) as (Rh & HRh & _); [listed|].
  destruct (result_row minimize self df Rvsh Rhsh GR Rv Rh Hst HGR HRv HRh)
    as (rvsh & rhsh & self' & df' & res & Hend & Hrun & HrRv & HrRh & Hrow).
  exists rvsh, rhsh, self', df', res. do 2 (split; [done|]).
  intros i csh rs rv rh Hc Hs Hv Hh. cbv zeta.
  unfold at_row in Hv, Hh. rewrite HrRv in Hv. rewrite HrRh in Hh. simpl in Hv, Hh.
  destruct (Hrow i rv rh Hv Hh) as (H1 & H2 & _ & _ & _ & _ & _ & H8 & H9 & H10 & H11).
  rewrite H1 in Hc. rewrite H2 in Hs. injection Hc as <-. injection Hs as <-.
  do 4 (split; [done|]).
  split; (apply Rmult_le_pos; [apply Rabs_pos | lra]).
Qed.

Lemma returned_table_rows_consistent_witness :
  exists rvsh rhsh self' df' res,
    end_member df_clean None None = ok (rvsh, rhsh) /\
    resistivity_inversion (minimize_to 1.5) ARI_init df_clean None None
      = ok (self', df', res) /\
    forall i csh rs rv rh,
      at_row res "Csh" i = Some csh -> at_row res "Rs" i = Some rs ->
      at_row res "Rv" i = Some rv -> at_row res "Rh" i = Some rh ->
      let rv_sim := csh * rvsh + (1 - csh) * rs in
      let rh_sim := 1 / (csh / rhsh + (1 - csh) / rs) in
      at_row res "Rv_sim" i = Some rv_sim /\
      at_row res "Rh_sim" i = Some rh_sim /\
      at_row res "Rv_err" i = Some (Rabs ((rv_sim - rv) / rv) * 100) /\
      at_row res "Rh_err" i = Some (Rabs ((rh_sim - rh) / rh) * 100) /\
      0 <= Rabs ((rv_sim - rv) / rv) * 100 /\
      0 <= Rabs ((rh_sim - rh) / rh) * 100.
Proof.
  apply (returned_table_rows_consistent (minimize_to 1.5) ARI_init df_clean None None).
  apply two_samples_table; reflexivity.
Defined.

(** X12.  The diagnostic columns have one entry per sample, and in every
    row norm_jac is the Euclidean norm of (jac1, jac2), so it is never
    negative. *)
Theorem jacobian_norm_column (minimize : minimizer) (self : ARI)
    (df : DataFrame) (Rvsh Rhsh : option R) :
  sample_table df ->
  exists self' df' res,
    resistivity_inversion minimize self df Rvsh Rhsh = ok (self', df', res) /\
    forall i, (i < nrows df)%nat ->
      exists f n j1 j2,
        at_row res "fun" i = Some f /\ at_row res "nfev" i = Some n /\
        at_row res "jac1" i = Some j1 /\ at_row res "jac2" i = Some j2 /\
        at_row res "norm_jac" i = Some (sqrt (j1 * j1 + (j2 * j2 + 0))) /\
        0 <= sqrt (j1 * j1 + (j2 * j2 + 0)).
Proof.
  intros Hst.
  destruct (sample_table_column df "GR" Hst) as (GR & HGR & _); [listed|].
  destruct (sample_table_column df "Rv" Hst) as (Rv & HRv & HlV); [listed|].
  destruct (sample_table_column df "Rh" Hst) as (Rh & HRh & HlH); [listed|].
  destruct (result_row minimize self df Rvsh Rhsh GR Rv Rh Hst HGR HRv HRh)
    as (rvsh & rhsh & self' & df' & res & _ & Hrun & _ & _ & Hrow).
  exists self', df', res. split; [done|]. intros i Hi.
  destruct (lookup_lt_is_Some_2 Rv i) as [rv Hv]; [lia|].
  destruct (lookup_lt_is_Some_2 Rh i) as [rh Hh]; [lia|].
  destruct (Hrow i rv rh Hv Hh) as (_ & _ & H3 & H4 & H5 & H6 & H7 & _).
  do 4 eexists. do 4 (split; [done|]). split; [exact H7|]. apply sqrt_pos.
Qed.

Lemma jacobian_norm_column_witness :
  exists self' df' res,
    resistivity_inversion (minimize_to 1.5) ARI_init df_clean None None
      = ok (self', df', res) /\
    forall i, (i < nrows df_clean)%nat ->
      exists f n j1 j2,
        at_row res "fun" i = Some f /\ at_row res "nfev" i = Some n /\
        at_row res "jac1" i = Some j1 /\ at_row res "jac2" i = Some j2 /\
        at_row res "norm_jac" i = Some (sqrt (j1 * j1 + (j2 * j2 + 0))) /\
        0 <= sqrt (j1 * j1 + (j2 * j2 + 0)).
Proof.
  apply (jacobian_norm_column (minimize_to 1.5) ARI_init df_clean None None).
  apply two_samples_table; reflexivity.
Defined.

(** ** More on the uncertainty quantification *)

Lemma inversion_same_options (minimize : minimizer) (a b : ARI) (rvsh rhsh : R)
    (df : DataFrame) :
  same_options a b ->
  inversion minimize a rvsh rhsh df = inversion minimize b rvsh rhsh df.
Proof.
  intros H. destruct a, b. unfold same_options in H. simpl in H.
  destruct H as (? & ? & ? & ? & ? & ? & ? & ?). subst. reflexivity.
Qed.

(** The table returned does not depend on the tables the inverter has
    stored. *)
Lemma resistivity_inversion_same_options (minimize : minimizer) (a b : ARI)
    (df : DataFrame) (Rvsh Rhsh : option R) (sb : ARI) (d t : DataFrame) :
  same_options a b ->
  resistivity_inversion minimize b df Rvsh Rhsh = ok (sb, d, t) ->
  resistivity_inversion minimize a df Rvsh Rhsh = ok (set_res_inv a t, d, t).
Proof.
  intros Hopt. unfold resistivity_inversion.
  destruct (end_member df Rvsh Rhsh) as [e|sh]; simpl; [done|].
  destruct (getcol df "GR") as [e|gr]; simpl; [done|].
  destruct (select _ _) as [e|val]; simpl; [done|].
  rewrite (inversion_same_options minimize a b) by done.
  destruct (inversion minimize b _ _ _) as [e|sol]; simpl; [done|].
  destruct (simulate _ _ sol) as [e|sim]; simpl; [done|].
  destruct (error sol sim) as [e|err]; simpl; [done|].
  by intros [= _ <- <-].
Qed.

Lemma resistivity_inversion_self (minimize : minimizer) (self : ARI) (df : DataFrame)
    (Rvsh Rhsh : option R) (s : ARI) (d t : DataFrame) :
  resistivity_inversion minimize self df Rvsh Rhsh = ok (s, d, t) ->
  s = set_res_inv self t.
Proof.
  intros H.
  pose proof (resistivity_inversion_same_options minimize self self df Rvsh Rhsh s d t
                (same_options_refl self) H) as H'.
  rewrite H in H'. by injection H' as ->.
Qed.

Lemma zip_with_left {A B : Type} (f : A -> B -> A) (l : list A) (k : list B) :
  (forall a b, f a b = a) -> (length l <= length k)%nat -> zip_with f l k = l.
Proof.
  intros Hf. revert k. induction l as [|a l IH]; intros k Hlen; [done|].
  destruct k as [|b k]; simpl in *; [lia|]. rewrite Hf, IH; [done | lia].
Qed.

Lemma add_noise_level_zero (self : ARI) (df : DataFrame) (sigma_v sigma_h : R)
    (e Rv Rh : list R) :
  noise_lvl self = 0 ->
  columns df !! "Rv" = Some Rv ->
  columns df !! "Rh" = Some Rh ->
  (length Rv <= length e)%nat -> (length Rh <= length e)%nat ->
  add_noise self df sigma_v sigma_h e = ok df.
Proof.
  intros Hn HRv HRh HlV HlH.
  rewrite (add_noise_ok self df sigma_v sigma_h e Rv Rh HRv HRh). rewrite Hn.
  rewrite !zip_with_left; try done; try (intros a b; unfold Rdiv; ring).
  f_equal. destruct df as [idx cols]. unfold setcol. simpl in *. f_equal.
  rewrite (insert_id cols "Rv" Rv HRv). by apply insert_id.
Qed.

(** X14.  With a noise level of zero the ensemble is n_ensemble copies of
    the table a plain call of the nonlinear inversion returns, whatever the
    generator draws. *)
Theorem uq_without_noise (minimize : minimizer) {RNG : Type}
    (gauss : RNG -> R * RNG) (self : ARI) (df : DataFrame) (g : RNG) :
  noise_lvl self = 0 ->
  sample_table df ->
  exists self0 df0 res self' g' realizations,
    resistivity_inversion minimize self df None None = ok (self0, df0, res) /\
    inversion_uq minimize gauss self df g = ok (self', g', realizations) /\
    realizations = replicate (n_ensemble self) res.
Proof.
  intros Hn Hst.
  destruct (sample_table_column df "GR" Hst) as (GR & HGR & _); [listed|].
  destruct (sample_table_column df "Rv" Hst) as (Rv & HRv & HlV); [listed|].
  destruct (sample_table_column df "Rh" Hst) as (Rh & HRh & HlH); [listed|].
  destruct (resistivity_inversion_ok minimize self df None None GR Rv Rh Hst HGR HRv HRh)
    as (k & rv & rh & res & _ & _ & _ & _ & Hrun & _).
  destruct (inversion_uq_ok minimize gauss self df g Rv Rh Hst HRv HRh)
    as (self' & g' & reals & Huq & Hall).
  do 3 eexists. exists self', g', reals. split; [exact Hrun|]. split; [done|].
  symmetry. apply replicate_as_Forall_2.
  - rewrite <- (Forall2_length _ _ _ Hall). apply draws_count.
  - apply (Forall2_Forall_r _ _ _ _ Hall).
    pose proof (draws_length gauss (n_ensemble self) (nrows df) g) as Hlens.
    eapply Forall_impl; [exact Hlens|]. simpl.
    intros e Hlen out (self_j & df_noise & s & d & Hopt & Hadd & Hrunj).
    rewrite (add_noise_level_zero self df _ _ e Rv Rh) in Hadd by (done || lia).
    injection Hadd as <-.
    rewrite (resistivity_inversion_same_options minimize self_j self df None None
               _ _ _ Hopt Hrun) in Hrunj.
    by injection Hrunj as _ _ ->.
Qed.

Lemma uq_without_noise_witness :
  exists self0 df0 res self' g' realizations,
    resistivity_inversion (minimize_to 1.5)
      (mkARI true true true "L-BFGS-B" 1e-4 1e-3 100 (0.5, 1.5) true 3 0 None None)
      df_clean None None = ok (self0, df0, res) /\
    inversion_uq (minimize_to 1.5) tape_gauss
      (mkARI true true true "L-BFGS-B" 1e-4 1e-3 100 (0.5, 1.5) true 3 0 None None)
      df_clean [1; -1; 2] = ok (self', g', realizations) /\
    realizations =
      replicate
        (n_ensemble
           (mkARI true true true "L-BFGS-B" 1e-4 1e-3 100 (0.5, 1.5) true 3 0 None None))
        res.
Proof.
  apply (uq_without_noise (minimize_to 1.5) tape_gauss
           (mkARI true true true "L-BFGS-B" 1e-4 1e-3 100 (0.5, 1.5) true 3 0 None None)
           df_clean [1; -1; 2]).
  - reflexivity.
  - apply two_samples_table; reflexivity.
Defined.

Lemma same_options_trans (a b c : ARI) :
  same_options a b -> same_options b c -> same_options a c.
Proof.
  unfold same_options. intros (?&?&?&?&?&?&?&?) (?&?&?&?&?&?&?&?).
  repeat split; congruence.
Qed.

Lemma uq_loop_state (minimize : minimizer) {RNG : Type} (gauss : RNG -> R * RNG)
    (df : DataFrame) (sigma_v sigma_h : R) (n : nat) :
  forall (self_j : ARI) (g : RNG) (acc : list DataFrame) self' g' reals,
    uq_loop minimize gauss n self_j df sigma_v sigma_h g acc = ok (self', g', reals) ->
    same_options self' self_j /\
    quad_inv self' = quad_inv self_j /\
    res_inv self' = match n with O => res_inv self_j | S _ => last reals end.
Proof.
  induction n as [|n IH]; intros self_j g acc self' g' reals; simpl.
  - intros [= <- <- <-]. split; [apply same_options_refl|]. done.
  - destruct (random_normal gauss (nrows df) g) as [e g1].
    destruct (add_noise self_j df sigma_v sigma_h e) as [err|dfn]; simpl; [done|].
    destruct (resistivity_inversion minimize self_j dfn None None)
      as [err|[[s d] t]] eqn:Hrun; simpl; [done|].
    apply resistivity_inversion_self in Hrun as ->.
    intros Hloop. pose proof Hloop as Hloop'.
    apply IH in Hloop as (H1 & H2 & H3).
    split; [|split].
    + apply (same_options_trans _ (set_res_inv self_j t)); [done|]. by repeat split.
    + by rewrite H2.
    + destruct n as [|n].
      * simpl in Hloop'. injection Hloop' as <- <- <-. rewrite last_snoc. done.
      * exact H3.
Qed.

(** X16.  After the driver has run at least one realization, the inverter
    holds the table of the last realization as res_inv; its options and
    its quad_inv are as before, and the ensemble has n_ensemble tables. *)
Theorem uq_final_state (minimize : minimizer) {RNG : Type}
    (gauss : RNG -> R * RNG) (self : ARI) (df : DataFrame) (g : RNG) :
  sample_table df ->
  (0 < n_ensemble self)%nat ->
  exists self' g' realizations last_table,
    inversion_uq minimize gauss self df g = ok (self', g', realizations) /\
    length realizations = n_ensemble self /\
    last realizations = Some last_table /\
    res_inv self' = Some last_table /\
    quad_inv self' = quad_inv self /\
    same_options self' self.
Proof.
  intros Hst Hpos.
  destruct (sample_table_column df "Rv" Hst) as (Rv & HRv & _); [listed|].
  destruct (sample_table_column df "Rh" Hst) as (Rh & HRh & _); [listed|].
  destruct (inversion_uq_ok minimize gauss self df g Rv Rh Hst HRv HRh)
    as (self' & g' & reals & Huq & Hall).
  assert (length reals = n_ensemble self) as Hlen.
  { rewrite <- (Forall2_length _ _ _ Hall). apply draws_count. }
  pose proof Huq as Huq'. unfold inversion_uq in Huq'.
  rewrite (getcol_ok _ _ _ HRv), (getcol_ok _ _ _ HRh) in Huq'. simpl in Huq'.
  apply uq_loop_state in Huq' as (H1 & H2 & H3).
  destruct (n_ensemble self) as [|n] eqn:Hn; [lia|].
  destruct (last reals) as [t|] eqn:Hlast.
  - exists self', g', reals, t. simpl in H3. done.
  - apply last_None in Hlast. subst reals. simpl in Hlen. lia.
Qed.

Lemma uq_final_state_witness :
  exists self' g' realizations last_table,
    inversion_uq (minimize_to 1.5) tape_gauss ARI_init df_clean [1; -1]
      = ok (self', g', realizations) /\
    length realizations = n_ensemble ARI_init /\
    last realizations = Some last_table /\
    res_inv self' = Some last_table /\
    quad_inv self' = quad_inv ARI_init /\
    same_options self' ARI_init.
Proof.
  apply (uq_final_state (minimize_to 1.5) tape_gauss ARI_init df_clean [1; -1]).
  - apply two_samples_table; reflexivity.
  - simpl. lia.
Defined.

(** ** The ensemble of Csh curves *)

Lemma csh_rows_ok (P : list R -> Prop) (case_uq : list DataFrame) (n : nat) :
  (forall t, t ∈ case_uq -> exists v, columns t !! "Csh" = Some v /\ P v) ->
  forall i, (i + n <= length case_uq)%nat ->
    exists M, csh_rows case_uq i n = ok M /\ length M = n /\ Forall P M.
Proof.
  intros Hall. induction n as [|n IH]; intros i Hlen; simpl.
  - exists []. by repeat split.
  - destruct (lookup_lt_is_Some_2 case_uq i) as [t Ht]; [lia|]. rewrite Ht.
    destruct (Hall t) as (v & Hv & HP); [by apply list_elem_of_lookup; eauto|].
    rewrite (getcol_ok _ _ _ Hv). simpl.
    destruct (IH (S i)) as (M & -> & HlM & HM); [lia|]. simpl.
    exists (v :: M). repeat split; [simpl; lia | by constructor].
Qed.

Lemma csh_rows_short (case_uq : list DataFrame) (n : nat) :
  (forall t, t ∈ case_uq -> is_Some (columns t !! "Csh")) ->
  forall i, (i <= length case_uq)%nat -> (length case_uq < i + n)%nat ->
    csh_rows case_uq i n = raise IndexError.
Proof.
  intros Hall. induction n as [|n IH]; intros i Hi Hlen; simpl; [lia|].
  destruct (case_uq !! i) as [t|] eqn:Ht; [|done].
  destruct (Hall t) as [v Hv]; [by apply list_elem_of_lookup; eauto|].
  rewrite (getcol_ok _ _ _ Hv). simpl.
  pose proof (lookup_lt_Some _ _ _ Ht).
  rewrite IH; [done | lia | lia].
Qed.

(** The Csh column of a realization: one entry per sample, each in
    [0, 1] when the solver honours its bounds. *)
Lemma realization_csh (minimize : minimizer) (self : ARI) (df : DataFrame)
    (sigma_v sigma_h : R) (e : list R) (out : DataFrame) :
  honours_bounds minimize (method self) ->
  sample_table df ->
  length e = nrows df ->
  is_realization minimize self df sigma_v sigma_h e out ->
  exists Csh,
    columns out !! "Csh" = Some Csh /\
    length Csh = nrows df /\ Forall (fun c => 0 <= c <= 1) Csh.
Proof.
  intros Hb Hst Hlen (self_j & df_noise & s & d & Hopt & Hadd & Hrun).
  destruct (sample_table_column df "GR" Hst) as (GR & HGR & HlG); [listed|].
  destruct (sample_table_column df "Rv" Hst) as (Rv & HRv & HlV); [listed|].
  destruct (sample_table_column df "Rh" Hst) as (Rh & HRh & HlH); [listed|].
  rewrite (add_noise_ok self df sigma_v sigma_h e Rv Rh HRv HRh) in Hadd.
  injection Hadd as <-.
  set (Rv' := zip_with (fun r n => r + n * (noise_lvl self / 100) * sigma_v) Rv e) in *.
  set (Rh' := zip_with (fun r n => r + n * (noise_lvl self / 100) * sigma_h) Rh e) in *.
  assert (length Rv' = nrows df) as HlV' by (unfold Rv'; rewrite length_zip_with; lia).
  assert (length Rh' = nrows df) as HlH' by (unfold Rh'; rewrite length_zip_with; lia).
  pose proof (noisy_sample_table df Rv' Rh' Hst HlV' HlH') as Hst'.
  destruct (resistivity_inversion_ok minimize self_j _ None None GR Rv' Rh' Hst')
    as (k & rv' & rh' & res & _ & _ & _ & _ & Hrun' & _ & _ & _ & _ & _ & HCsh & _).
  { unfold setcol. cbn [columns]. by rewrite !lookup_insert_ne. }
  { unfold setcol. cbn [columns]. by rewrite lookup_insert_ne, lookup_insert_eq. }
  { unfold setcol. cbn [columns]. by rewrite lookup_insert_eq. }
  rewrite Hrun' in Hrun. injection Hrun as _ _ <-.
  eexists. split; [exact HCsh|]. split.
  - rewrite length_fmap, length_zip. lia.
  - rewrite Forall_fmap, Forall_forall. intros row _. simpl.
    apply solve_row_csh_bounds. destruct Hopt as (-> & _). done.
Qed.

(** X15.  The array of Csh curves built from the ensemble the driver
    returns has n_ensemble rows of one entry per sample, and every entry
    lies in [0, 1] when the solver method honours its bounds. *)
Theorem csh_ensemble_shape (minimize : minimizer) {RNG : Type}
    (gauss : RNG -> R * RNG) (self : ARI) (df : DataFrame) (g : RNG) :
  honours_bounds minimize (method self) ->
  sample_table df ->
  exists self' g' realizations M,
    inversion_uq minimize gauss self df g = ok (self', g', realizations) /\
    csh_ensemble self' realizations = ok M /\
    length M = n_ensemble self /\
    Forall (fun row => length row = nrows df /\ Forall (fun c => 0 <= c <= 1) row) M.
Proof.
  intros Hb Hst.
  destruct (sample_table_column df "Rv" Hst) as (Rv & HRv & _); [listed|].
  destruct (sample_table_column df "Rh" Hst) as (Rh & HRh & _); [listed|].
  destruct (inversion_uq_ok minimize gauss self df g Rv Rh Hst HRv HRh)
    as (self' & g' & reals & Huq & Hall).
  assert (length reals = n_ensemble self) as Hlen.
  { rewrite <- (Forall2_length _ _ _ Hall). apply draws_count. }
  assert (n_ensemble self' = n_ensemble self) as Hn.
  { pose proof Huq as Huq'. unfold inversion_uq in Huq'.
    rewrite (getcol_ok _ _ _ HRv), (getcol_ok _ _ _ HRh) in Huq'. simpl in Huq'.
    apply uq_loop_state in Huq' as ((_ & _ & _ & _ & _ & _ & H & _) & _). exact H. }
  destruct (csh_rows_ok
              (fun row => length row = nrows df /\ Forall (fun c => 0 <= c <= 1) row)
              reals (n_ensemble self)) with (i := 0%nat) as (M & HM & HlM & HPM).
  - intros t Ht. apply list_elem_of_lookup in Ht as [j Hj].
    destruct (Forall2_lookup_r _ _ _ _ _ Hall Hj) as (e & He & Hreal).
    pose proof (draws_length gauss (n_ensemble self) (nrows df) g) as Hlens.
    rewrite Forall_lookup in Hlens. pose proof (Hlens _ _ He) as Hle.
    destruct (realization_csh minimize self df _ _ e t Hb Hst Hle Hreal)
      as (Csh & H1 & H2 & H3).
    exists Csh. done.
  - lia.
  - exists self', g', reals, M. unfold csh_ensemble. rewrite Hn. done.
Qed.

Lemma csh_ensemble_shape_witness :
  exists self' g' realizations M,
    inversion_uq (minimize_to 1.5) tape_gauss ARI_init df_clean [1; -1]
      = ok (self', g', realizations) /\
    csh_ensemble self' realizations = ok M /\
    length M = n_ensemble ARI_init /\
    Forall (fun row => length row = nrows df_clean /\ Forall (fun c => 0 <= c <= 1) row) M.
Proof.
  apply (csh_ensemble_shape (minimize_to 1.5) tape_gauss ARI_init df_clean [1; -1]).
  - apply minimize_to_honours_bounds.
  - apply two_samples_table; reflexivity.
Defined.

(** X17.  Asked for more curves than the ensemble has realizations (an
    n_ensemble raised after the driver ran), the construction of the array
    raises IndexError. *)
Theorem csh_ensemble_too_few_realizations (self : ARI) (case_uq : list DataFrame) :
  (forall t, t ∈ case_uq -> is_Some (columns t !! "Csh")) ->
  (length case_uq < n_ensemble self)%nat ->
  csh_ensemble self case_uq = raise IndexError.
Proof.
  intros Hall Hlen. unfold csh_ensemble. apply csh_rows_short; [done | lia | lia].
Qed.

Lemma csh_ensemble_too_few_realizations_witness :
  csh_ensemble ARI_init [sol_one_row] = raise IndexError.
Proof.
  apply (csh_ensemble_too_few_realizations ARI_init [sol_one_row]).
  - intros t ->%list_elem_of_singleton. by eexists.
  - simpl. lia.
Defined.

(** ** The two inversions on one inverter *)

(** The quadratic inversion reads the index and the columns GR, Rv and Rh
    only, and nothing of the inverter: on the table the nonlinear
    inversion has written Csh_lin into, and whatever the inverter holds,
    it returns the table it returns for the table as passed in. *)
Lemma end_member_setcol (df : DataFrame) (Rvsh Rhsh : option R) (v : list R) :
  end_member (setcol df "Csh_lin" v) Rvsh Rhsh = end_member df Rvsh Rhsh.
Proof.
  unfold end_member, end_member_value, getcol, setcol. cbn [columns].
  by rewrite !lookup_insert_ne.
Qed.

Lemma quadratic_inversion_frame eigvals (self s : ARI) (df : DataFrame)
    (Rvsh Rhsh : option R) (v : list R) :
  quadratic_inversion eigvals s (setcol df "Csh_lin" v) Rvsh Rhsh =
    match quadratic_inversion eigvals self df Rvsh Rhsh with
    | inl e => inl e
    | inr (_, t) => inr (set_quad_inv s t, t)
    end.
Proof.
  unfold quadratic_inversion. rewrite end_member_setcol.
  destruct (end_member df Rvsh Rhsh) as [e|sh]; simpl; [done|].
  unfold getcol, setcol, nrows. cbn [columns index].
  rewrite !lookup_insert_ne by done.
  destruct (length (index df)); simpl; [done|].
  destruct (columns df !! "Rv") as [Rv|]; simpl; [|done].
  destruct (columns df !! "Rh") as [Rh|]; simpl; [|done].
  reflexivity.
Qed.

(** X18.  The two inversions do not disturb each other: run one after the
    other on the same inverter and table, both succeed, the inverter ends
    up holding both tables with its options unchanged, and the table of
    the quadratic inversion is the one it returns when run alone. *)
Theorem inversions_compose (minimize : minimizer) eigvals (self : ARI)
    (df : DataFrame) (Rvsh Rhsh : option R) :
  sample_table df ->
  exists s1 df1 res s2 q s0,
    resistivity_inversion minimize self df Rvsh Rhsh = ok (s1, df1, res) /\
    quadratic_inversion eigvals s1 df1 Rvsh Rhsh = ok (s2, q) /\
    quadratic_inversion eigvals self df Rvsh Rhsh = ok (s0, q) /\
    res_inv s2 = Some res /\ quad_inv s2 = Some q /\
    same_options s2 self.
Proof.
  intros Hst.
  destruct (sample_table_column df "GR" Hst) as (GR & HGR & _); [listed|].
  destruct (sample_table_column df "Rv" Hst) as (Rv & HRv & _); [listed|].
  destruct (sample_table_column df "Rh" Hst) as (Rh & HRh & _); [listed|].
  destruct (resistivity_inversion_ok minimize self df Rvsh Rhsh GR Rv Rh Hst HGR HRv HRh)
    as (k & rv & rh & res & _ & _ & _ & _ & Hrun & _).
  destruct (quadratic_inversion_ok eigvals self df Rvsh Rhsh Rv Rh Hst HRv HRh)
    as (rvsh & rhsh & q & _ & Hquad & _).
  do 3 eexists. exists (set_quad_inv (set_res_inv self res) q), q. eexists.
  split; [exact Hrun|]. split; [|split; [exact Hquad|]].
  - rewrite (quadratic_inversion_frame eigvals self). by rewrite Hquad.
  - repeat split.
Qed.

Lemma inversions_compose_witness :
  exists s1 df1 res s2 q s0,
    resistivity_inversion (minimize_to 1.5) ARI_init df_clean None None
      = ok (s1, df1, res) /\
    quadratic_inversion eigvals_closed_form s1 df1 None None = ok (s2, q) /\
    quadratic_inversion eigvals_closed_form ARI_init df_clean None None = ok (s0, q) /\
    res_inv s2 = Some res /\ quad_inv s2 = Some q /\
    same_options s2 ARI_init.
Proof.
  apply (inversions_compose (minimize_to 1.5) eigvals_closed_form ARI_init df_clean
           None None).
  apply two_samples_table; reflexivity.
Defined.
